(** * doify: DOI lookup for bibliography entries

    A shallow embedding of [doify.py] (functions [similar], [search_doi] and
    [process_bib_file]) together with the routines of the Python standard
    library and of [requests] that decide its behaviour, and the properties
    of the embedding that the specification states.

    Conventions.
    - A Python [str] is a Rocq [string]; its characters are read as the code
      points U+0000..U+00FF, on which [str.lower] is defined exactly below.
    - A Python [float] that the program computes is the quotient of two
      small integers; it is represented by that quotient as an exact
      rational ([Qc]).  The double [2.0 * m / t] and the rational [2m/t]
      compare alike with [1.0] and [0.0] for all lengths, and with [0.8]
      whenever [t] is below [2^50].
    - Indices are natural numbers.  Where Python would read a dictionary at
      the key [-1] the model says so explicitly. *)

From stdpp Require Import gmap strings list fin_maps sorting.
From Stdlib Require Import QArith Qcanon.

#[local] Set Warnings "-register-all".
#[local] Open Scope nat_scope.

(** ** [difflib.SequenceMatcher]

    [similar] is a one-line wrapper of [SequenceMatcher(None, a, b).ratio()].
    The definitions of this module follow CPython's [Lib/difflib.py]
    statement by statement: [__chain_b], [find_longest_match],
    [get_matching_blocks], [ratio] and [_calculate_ratio]. *)
Module difflib.

(** [Match(a, b, size)], a named tuple; tuples compare lexicographically. *)
Definition Match : Type := nat * nat * nat.

Definition size (m : Match) : nat := m.2.

Definition Match_le (x y : Match) : Prop :=
  x.1.1 < y.1.1 ∨
  (x.1.1 = y.1.1 ∧ (x.1.2 < y.1.2 ∨ (x.1.2 = y.1.2 ∧ x.2 ≤ y.2))).

#[global] Instance Match_le_dec x y : Decision (Match_le x y).
Proof. unfold Match_le. apply _. Defined.

(** [_calculate_ratio(matches, length)]:
<<
    if length: return 2.0 * matches / length
    return 1.0
>> *)
Definition _calculate_ratio (matches length : nat) : Qc :=
  match length with
  | O => 1%Qc
  | S _ => Q2Qc (Z.of_nat (2 * matches) # Pos.of_nat length)
  end.

Section SequenceMatcher.
Context `{Countable A}.

(** The object state after [__init__]: the two sequences, and what
    [__chain_b] derives from [b]. *)
Record SequenceMatcher : Type := mkSequenceMatcher {
  sm_a : list A;
  sm_b : list A;
  b2j : gmap A (list nat);
  bjunk : gset A;
  bpopular : gset A
}.

(** [indices = b2j.setdefault(elt, []); indices.append(i)] *)
Definition setdefault_append (b2j : gmap A (list nat)) (i : nat) (elt : A)
  : gmap A (list nat) :=
  <[elt := default [] (b2j !! elt) ++ [i]]> b2j.

(** [for i, elt in enumerate(b): ...], started at index [i]. *)
Fixpoint enumerate_b (i : nat) (b : list A) (b2j : gmap A (list nat))
  : gmap A (list nat) :=
  match b with
  | [] => b2j
  | elt :: b' => enumerate_b (S i) b' (setdefault_append b2j i elt)
  end.

(** The junk elements: keys of [b2j] on which [isjunk] answers true; none
    when [isjunk] is [None]. *)
Definition junk_of (isjunk : option (A → bool)) (b2j : gmap A (list nat))
  : gset A :=
  match isjunk with
  | None => ∅
  | Some f => dom (filter (λ kv, f kv.1 = true) b2j)
  end.

(** The popular elements: with [autojunk] and [len(b) >= 200], the keys
    whose index list is longer than [len(b) // 100 + 1]. *)
Definition popular_of (autojunk : bool) (n : nat) (b2j : gmap A (list nat))
  : gset A :=
  if autojunk && bool_decide (200 ≤ n)
  then dom (filter (λ kv, n / 100 + 1 < length kv.2) b2j)
  else ∅.

(** [del b2j[elt]] for every [elt] of a set. *)
Definition purge (s : gset A) (b2j : gmap A (list nat)) : gmap A (list nat) :=
  filter (λ kv, kv.1 ∉ s) b2j.

(** [__chain_b], run by [set_seq2] from the constructor. *)
Definition __chain_b (isjunk : option (A → bool)) (autojunk : bool)
    (a b : list A) : SequenceMatcher :=
  let b2j0 := enumerate_b 0 b ∅ in
  let junk := junk_of isjunk b2j0 in
  let b2j1 := purge junk b2j0 in
  let popular := popular_of autojunk (length b) b2j1 in
  let b2j2 := purge popular b2j1 in
  {| sm_a := a; sm_b := b; b2j := b2j2; bjunk := junk; bpopular := popular |}.

Section Matching.
Variable sm : SequenceMatcher.

(** [b2j.get(a[i], nothing)].  The callers keep [i < len(a)]; outside
    that range Python raises and the model has no candidate. *)
Definition candidates (i : nat) : list nat :=
  match sm_a sm !! i with
  | Some x => default [] (b2j sm !! x)
  | None => []
  end.

(** [j2len.get(j-1, 0)]; the key [-1] is never bound. *)
Definition j2lenget_pred (j2len : gmap nat nat) (j : nat) : nat :=
  match j with
  | O => 0
  | S j' => default 0 (j2len !! j')
  end.

(** The inner loop of [find_longest_match] over the candidates of one
    row:
<<
    for j in b2j.get(a[i], nothing):
        if j < blo: continue
        if j >= bhi: break
        k = newj2len[j] = j2lenget(j-1, 0) + 1
        if k > bestsize:
            besti, bestj, bestsize = i-k+1, j-k+1, k
>> *)
Fixpoint scan_row (blo bhi i : nat) (j2len : gmap nat nat) (js : list nat)
    (newj2len : gmap nat nat) (best : Match) : gmap nat nat * Match :=
  match js with
  | [] => (newj2len, best)
  | j :: js' =>
      if bool_decide (j < blo) then scan_row blo bhi i j2len js' newj2len best
      else if bool_decide (bhi ≤ j) then (newj2len, best)
      else
        let k := j2lenget_pred j2len j + 1 in
        scan_row blo bhi i j2len js' (<[j := k]> newj2len)
          (if bool_decide (size best < k) then (i + 1 - k, j + 1 - k, k)
           else best)
  end.

(** One iteration of [for i in range(alo, ahi)]: [j2len = newj2len]. *)
Definition scan_step (blo bhi : nat) (st : gmap nat nat * Match) (i : nat)
  : gmap nat nat * Match :=
  scan_row blo bhi i st.1 (candidates i) ∅ st.2.

Definition scan_rows (alo ahi blo bhi : nat) : Match :=
  (fold_left (scan_step blo bhi) (seq alo (ahi - alo)) (∅, (alo, blo, 0))).2.

(** The test shared by the four extension loops, at positions [i] of
    [a] and [j] of [b]: [isbjunk(b[j])] has the value [junk], and
    [a[i] == b[j]]. *)
Definition same_at (junk : bool) (i j : nat) : bool :=
  match sm_a sm !! i, sm_b sm !! j with
  | Some x, Some y =>
      bool_decide (bool_decide (y ∈ bjunk sm) = junk) && bool_decide (x = y)
  | _, _ => false
  end.

(** [while besti > alo and bestj > blo and ... b[bestj-1] ...:
        besti, bestj, bestsize = besti-1, bestj-1, bestsize+1] *)
Fixpoint extend_back (junk : bool) (alo blo besti bestj bestsize : nat)
    {struct besti} : Match :=
  match besti, bestj with
  | S i', S j' =>
      if bool_decide (alo < besti) && bool_decide (blo < bestj)
         && same_at junk i' j'
      then extend_back junk alo blo i' j' (S bestsize)
      else (besti, bestj, bestsize)
  | _, _ => (besti, bestj, bestsize)
  end.

(** [while besti+bestsize < ahi and bestj+bestsize < bhi and
          ... b[bestj+bestsize] ...: bestsize += 1];
    [gap] bounds the iterations and is [ahi - (besti+bestsize)] at the
    call, so the loop always leaves through its guard. *)
Fixpoint extend_fwd (junk : bool) (ahi bhi besti bestj : nat) (gap : nat)
    (bestsize : nat) : nat :=
  match gap with
  | O => bestsize
  | S gap' =>
      if bool_decide (besti + bestsize < ahi)
         && bool_decide (bestj + bestsize < bhi)
         && same_at junk (besti + bestsize) (bestj + bestsize)
      then extend_fwd junk ahi bhi besti bestj gap' (S bestsize)
      else bestsize
  end.

Definition extend (junk : bool) (alo ahi blo bhi : nat) (m : Match) : Match :=
  let '(besti, bestj, bestsize) :=
    extend_back junk alo blo m.1.1 m.1.2 m.2 in
  (besti, bestj,
   extend_fwd junk ahi bhi besti bestj (ahi - (besti + bestsize)) bestsize).

(** [find_longest_match(alo, ahi, blo, bhi)]: the longest junk-free
    block, extended by non-junk and then by junk elements. *)
Definition find_longest_match (alo ahi blo bhi : nat) : Match :=
  extend true alo ahi blo bhi
    (extend false alo ahi blo bhi (scan_rows alo ahi blo bhi)).

(** The [while queue:] loop of [get_matching_blocks].  [queue] is a
    Python list used as a stack ([append], [pop]); its last element is
    the head of the model's list.  [None] only when [fuel] runs out. *)
Fixpoint blocks_loop (fuel : nat) (queue : list (nat * nat * nat * nat))
    (matching_blocks : list Match) : option (list Match) :=
  match fuel with
  | O => None
  | S fuel' =>
      match queue with
      | [] => Some matching_blocks
      | (alo, ahi, blo, bhi) :: queue =>
          let x := find_longest_match alo ahi blo bhi in
          let '(i, j, k) := x in
          if bool_decide (k ≠ 0) then
            let queue :=
              if bool_decide (alo < i) && bool_decide (blo < j)
              then (alo, i, blo, j) :: queue else queue in
            let queue :=
              if bool_decide (i + k < ahi) && bool_decide (j + k < bhi)
              then (i + k, ahi, j + k, bhi) :: queue else queue in
            blocks_loop fuel' queue (matching_blocks ++ [x])
          else blocks_loop fuel' queue matching_blocks
      end
  end.

(** The loop that merges adjacent blocks:
<<
    for i2, j2, k2 in matching_blocks:
        if i1 + k1 == i2 and j1 + k1 == j2: k1 += k2
        else:
            if k1: non_adjacent.append((i1, j1, k1))
            i1, j1, k1 = i2, j2, k2
>> *)
Fixpoint collapse (blocks : list Match) (cur : Match)
    (non_adjacent : list Match) : list Match * Match :=
  match blocks with
  | [] => (non_adjacent, cur)
  | (i2, j2, k2) :: blocks' =>
      let '(i1, j1, k1) := cur in
      if bool_decide (i1 + k1 = i2) && bool_decide (j1 + k1 = j2)
      then collapse blocks' (i1, j1, k1 + k2) non_adjacent
      else collapse blocks' (i2, j2, k2)
             (if bool_decide (k1 ≠ 0) then non_adjacent ++ [cur]
              else non_adjacent)
  end.

(** A pass of the [while] loop that finds a block removes an element of [a]
    from the ranges still queued and queues at most two ranges, so the loop
    pops at most [2 * len(a) + 1] ranges before it finds the queue empty
    ([blocks_loop_terminates]). *)
Definition queue_fuel : nat := 2 * length (sm_a sm) + 2.

Definition get_matching_blocks : list Match :=
  let la := length (sm_a sm) in
  let lb := length (sm_b sm) in
  let matching_blocks :=
    default [] (blocks_loop queue_fuel [(0, la, 0, lb)] []) in
  let sorted := merge_sort Match_le matching_blocks in
  let '(non_adjacent, (i1, j1, k1)) := collapse sorted (0, 0, 0) [] in
  let non_adjacent :=
    if bool_decide (k1 ≠ 0) then non_adjacent ++ [(i1, j1, k1)]
    else non_adjacent in
  non_adjacent ++ [(la, lb, 0)].

(** [ratio()]:
<<
    matches = sum(triple[-1] for triple in self.get_matching_blocks())
    return _calculate_ratio(matches, len(self.a) + len(self.b))
>> *)
Definition ratio : Qc :=
  let matches := foldr (λ triple acc, size triple + acc) 0 get_matching_blocks in
  _calculate_ratio matches (length (sm_a sm) + length (sm_b sm)).
End Matching.
End SequenceMatcher.
End difflib.

(** ** [doify.py] *)

(** [SequenceMatcher(None, a, b)]: no junk predicate, [autojunk] at its
    default [True]. *)
Definition SequenceMatcher_None (a b : string)
  : difflib.SequenceMatcher (A := Ascii.ascii) :=
  difflib.__chain_b None true
    (String.list_ascii_of_string a) (String.list_ascii_of_string b).

(** [similar(a, b)]: [return SequenceMatcher(None, a, b).ratio()] *)
Definition similar (a b : string) : Qc :=
  difflib.ratio (SequenceMatcher_None a b).


(** *** Python values

    What [response.json()] returns, and what the program passes around:
    [None], [bool], [int], [float], [str], [list] and [dict] with string
    keys. *)
Inductive value : Type :=
| VNone
| VBool (b : bool)
| VInt (z : Z)
| VFloat (q : Qc)
| VStr (s : string)
| VList (l : list value)
| VDict (d : gmap string value).

(** The exception classes the program can meet.  [RequestException] is the
    base class of what [requests] raises of its own: connection errors,
    timeouts, [HTTPError] from [raise_for_status] and [JSONDecodeError] from
    [Response.json].  The calls into [requests] can also raise exceptions of
    other classes: [UnicodeEncodeError] while the URL is encoded (a title
    with a lone surrogate), [RecursionError] while a deeply nested body is
    decoded.  [PybtexError] stands for the exceptions of [pybtex], among
    them the [BibTeXError] of its writer. *)
Inductive request_exception : Type :=
| ConnectionError
| Timeout
| TooManyRedirects
| HTTPError (status_code : Z)
| JSONDecodeError.

Inductive exn : Type :=
| RequestException (e : request_exception)
| TypeError
| AttributeError
| KeyError
| IndexError
| OSError
| PybtexError
| UnicodeEncodeError
| RecursionError.

(** [isinstance(e, requests.RequestException)] *)
Definition is_RequestException (e : exn) : bool :=
  match e with
  | RequestException _ => true
  | _ => false
  end.

(** A computation that returns or raises. *)
Inductive result (A : Type) : Type :=
| Ret (a : A)
| Raise (e : exn).
Arguments Ret {A} a.
Arguments Raise {A} e.

#[global] Instance result_ret : MRet result := λ A a, Ret a.
#[global] Instance result_bind : MBind result := λ A B f m,
  match m with
  | Ret a => f a
  | Raise e => Raise e
  end.

(** Truth value of an object in a condition. *)
Definition truthy (v : value) : bool :=
  match v with
  | VNone => false
  | VBool b => b
  | VInt z => bool_decide (z ≠ 0%Z)
  | VFloat q => bool_decide (q ≠ 0%Qc)
  | VStr s => bool_decide (s ≠ "")
  | VList l => bool_decide (l ≠ [])
  | VDict d => bool_decide (d ≠ ∅)
  end.

(** [sub in s] on two strings. *)
Fixpoint str_contains (sub s : string) : bool :=
  String.prefix sub s ||
  match s with
  | EmptyString => false
  | String _ s' => str_contains sub s'
  end.

(** [v == key] for a string [key]: only an equal [str] compares equal. *)
Definition eq_str (key : string) (v : value) : bool :=
  match v with
  | VStr s => bool_decide (s = key)
  | _ => false
  end.

(** [key in container] for a string [key]: key membership for a [dict],
    element membership for a [list], substring test for a [str]; any other
    object is not iterable. *)
Definition py_contains (key : string) (container : value) : result bool :=
  match container with
  | VDict d => Ret (bool_decide (is_Some (d !! key)))
  | VList l => Ret (existsb (eq_str key) l)
  | VStr s => Ret (str_contains key s)
  | _ => Raise TypeError
  end.

(** [container[key]] for a string [key]: only a [dict] can be indexed by a
    string. *)
Definition py_getitem (container : value) (key : string) : result value :=
  match container with
  | VDict d =>
      match d !! key with
      | Some v => Ret v
      | None => Raise KeyError
      end
  | _ => Raise TypeError
  end.

(** [len(x)] *)
Definition py_len (x : value) : result nat :=
  match x with
  | VDict d => Ret (size d)
  | VList l => Ret (length l)
  | VStr s => Ret (String.length s)
  | _ => Raise TypeError
  end.

(** [x[0]]: the keys of a [dict] from JSON are strings, so [0] is never
    one. *)
Definition py_getitem0 (x : value) : result value :=
  match x with
  | VList (v :: _) => Ret v
  | VList [] => Raise IndexError
  | VStr (String c _) => Ret (VStr (String c EmptyString))
  | VStr EmptyString => Raise IndexError
  | VDict _ => Raise KeyError
  | _ => Raise TypeError
  end.

(** [x.get(key, dflt)]: a method of [dict] only. *)
Definition py_get (x : value) (key : string) (dflt : value) : result value :=
  match x with
  | VDict d => Ret (default dflt (d !! key))
  | _ => Raise AttributeError
  end.

(** The elements [for ... in x] runs over: those of a [list], the
    one-character strings of a [str], the keys of a [dict]. *)
Definition py_iter (x : value) : result (list value) :=
  match x with
  | VList l => Ret l
  | VStr s => Ret ((λ c, VStr (String c EmptyString)) <$> String.list_ascii_of_string s)
  | VDict d => Ret ((λ kv, VStr kv.1) <$> map_to_list d)
  | _ => Raise TypeError
  end.

(** [str.lower] on one code point of U+0000..U+00FF: the letters A-Z and
    the capital letters of U+00C0..U+00DE (U+00D7 is the multiplication sign)
    move up by 32. *)
Definition lower_char (c : Ascii.ascii) : Ascii.ascii :=
  let n := Ascii.N_of_ascii c in
  if ((65 <=? n) && (n <=? 90) || (192 <=? n) && (n <=? 214)
      || (216 <=? n) && (n <=? 222))%N
  then Ascii.ascii_of_N (n + 32)
  else c.

Fixpoint lower (s : string) : string :=
  match s with
  | EmptyString => EmptyString
  | String c s' => String (lower_char c) (lower s')
  end.

(** [x.lower()]: a method of [str] only. *)
Definition py_lower (x : value) : result string :=
  match x with
  | VStr s => Ret (lower s)
  | _ => Raise AttributeError
  end.

(** *** [search_doi] *)

(** The condition of line 25:
    ["message" in data and "items" in data["message"]
     and len(data["message"]["items"]) > 0]. *)
Definition has_items (data : value) : result bool :=
  c1 ← py_contains "message" data;
  if c1 : bool then
    message ← py_getitem data "message";
    c2 ← py_contains "items" message;
    if c2 : bool then
      message ← py_getitem data "message";
      items ← py_getitem message "items";
      n ← py_len items;
      Ret (bool_decide (0 < n))
    else Ret false
  else Ret false.

(** The comprehension of line 27 over the elements of
    [item.get("author", [])]:
    [[author["family"] for author in ... if "family" in author]]. *)
Fixpoint family_names (authors : list value) : result (list value) :=
  match authors with
  | [] => Ret []
  | author :: authors' =>
      c ← py_contains "family" author;
      if c : bool then
        family ← py_getitem author "family";
        rest ← family_names authors';
        Ret (family :: rest)
      else family_names authors'
  end.

Definition crossref_authors (item : value) : result (list value) :=
  authors ← py_get item "author" (VList []);
  elements ← py_iter authors;
  family_names elements.

(** The loop of lines 30-32; [Some v] when [return v] is executed, [None]
    when the loop runs to its end. *)
Fixpoint match_authors (item : value) (author : string)
    (crossref_authors : list value) : result (option value) :=
  match crossref_authors with
  | [] => Ret None
  | crossref_author :: rest =>
      candidate ← py_lower crossref_author;
      if bool_decide (Q2Qc 0.8 < similar candidate (lower author))%Qc
      then doi ← py_get item "DOI" VNone; Ret (Some doi)
      else match_authors item author rest
  end.

(** Lines 25-32 on the decoded body. *)
Definition search_items (data : value) (author : string)
  : result (option value) :=
  c ← has_items data;
  if c : bool then
    message ← py_getitem data "message";
    items ← py_getitem message "items";
    item ← py_getitem0 items;
    authors ← crossref_authors item;
    match_authors item author authors
  else Ret None.

(** What [requests.get] meets at the registry: it raises an exception, of
    any class; or it returns a response with a status code and a body, on
    which [json()] returns the decoded body ([Some]), raises
    [JSONDecodeError] ([None]), or raises another exception
    ([JsonRaises]). *)
Inductive reply : Type :=
| GetRaises (e : exn)
| Response (status_code : Z) (json : option value)
| JsonRaises (status_code : Z) (e : exn).

(** The registry answers a query from the title and from the queries made
    before it. *)
Definition registry : Type := list value → value → reply.

(** [Response.raise_for_status]: [HTTPError] for the client errors 400-499
    and the server errors 500-599, nothing otherwise. *)
Definition raise_for_status (status_code : Z) : result unit :=
  if bool_decide (400 ≤ status_code < 600)%Z
  then Raise (RequestException (HTTPError status_code))
  else Ret ().

(** [Response.json]: the decoded body, or [JSONDecodeError]. *)
Definition response_json (json : option value) : result value :=
  match json with
  | Some data => Ret data
  | None => Raise (RequestException JSONDecodeError)
  end.

(** Lines 21-32, the body of the [try], on the reply to the query. *)
Definition try_body (r : reply) (author : string) : result (option value) :=
  match r with
  | GetRaises e => Raise e
  | Response status_code json =>
      _ ← raise_for_status status_code;
      data ← response_json json;
      search_items data author
  | JsonRaises status_code e =>
      _ ← raise_for_status status_code;
      Raise e
  end.

(** [try: ... except requests.RequestException as e: print(...)] followed by
    [return None]: a [RequestException] is caught and the function returns
    [None]; any other exception leaves the function. *)
Definition except_RequestException (body : result (option value))
  : result value :=
  match body with
  | Ret (Some v) => Ret v
  | Ret None => Ret VNone
  | Raise (RequestException _) => Ret VNone
  | Raise e => Raise e
  end.

(** The state the program acts on: the queries sent to the registry, in
    order, and the assignments [entry.fields["doi"] = doi] executed, in
    order, each with the key of its entry. *)
Record World : Type := mkWorld {
  queries : list value;
  doi_writes : list (string * value)
}.

Definition M (A : Type) : Type := World → result A * World.

#[global] Instance M_ret : MRet M := λ A a w, (Ret a, w).
#[global] Instance M_bind : MBind M := λ A B f m w,
  match m w with
  | (Ret a, w') => f a w'
  | (Raise e, w') => (Raise e, w')
  end.

(** [requests.get(url, params={"query.title": title, "rows": 1})]: one
    query, recorded, answered by the registry. *)
Definition requests_get (reg : registry) (title : value) : World → reply * World :=
  λ w, (reg (queries w) title,
        {| queries := queries w ++ [title]; doi_writes := doi_writes w |}).

Definition search_doi (reg : registry) (title : value) (author : string)
  : M value :=
  λ w, let '(r, w') := requests_get reg title w in
       (except_RequestException (try_body r author), w').

(** *** [process_bib_file] *)

(** What the program reads of a [pybtex] person: the list of last names. *)
Record Person : Type := mkPerson {
  last_names : list string
}.

(** A [pybtex] entry: [fields] and [persons], two case-insensitive ordered
    dictionaries, keyed here by the lower-case name.  A field holds whatever
    object was stored in it. *)
Record Entry : Type := mkEntry {
  fields : gmap string value;
  persons : gmap string (list Person)
}.

(** [bib_data.entries]: citation key and entry, in file order. *)
Abbreviation BibliographyData := (list (string * Entry)).

Definition lift {A : Type} (r : result A) : M A := λ w, (r, w).

(** [str(authors[0].last_names[0])] *)
Definition first_last_name (authors : list Person) : result string :=
  match authors with
  | [] => Raise IndexError
  | person :: _ =>
      match last_names person with
      | [] => Raise IndexError
      | name :: _ => Ret name
      end
  end.

(** [entry.fields["doi"] = doi], recorded. *)
Definition set_doi (entry_key : string) (entry : Entry) (doi : value) : M Entry :=
  λ w, (Ret {| fields := <["doi" := doi]> (fields entry);
               persons := persons entry |},
        {| queries := queries w;
           doi_writes := doi_writes w ++ [(entry_key, doi)] |}).

(** [title and authors] *)
Definition title_and_authors (title : value) (authors : list Person) : bool :=
  truthy title && match authors with [] => false | _ :: _ => true end.

(** The body of the loop of line 45 for one entry; it returns the entry as
    the loop leaves it and the new [updated_count]. *)
Definition loop_body (reg : registry) (entry_key : string) (entry : Entry)
    (updated_count : nat) : M (Entry * nat) :=
  match fields entry !! "doi" with
  | None =>
      let title := default (VStr "") (fields entry !! "title") in
      let authors := default [] (persons entry !! "author") in
      if title_and_authors title authors then
        first_author ← lift (first_last_name authors);
        doi ← search_doi reg title first_author;
        if truthy doi then
          entry' ← set_doi entry_key entry doi;
          mret (entry', updated_count + 1)
        else mret (entry, updated_count)
      else mret (entry, updated_count)
  | Some _ => mret (entry, updated_count)
  end.

(** [for entry_key, entry in bib_data.entries.items(): ...] *)
Fixpoint for_entries (reg : registry) (entries : BibliographyData)
    (updated_count : nat) : M (BibliographyData * nat) :=
  match entries with
  | [] => mret ([], updated_count)
  | (entry_key, entry) :: rest =>
      r ← loop_body reg entry_key entry updated_count;
      r' ← for_entries reg rest r.2;
      mret ((entry_key, r.1) :: r'.1, r'.2)
  end.

(** The two files and [pybtex], which reads and writes them.  A file is
    given by the bibliography that [pybtex] reads from it.
    - [parse_file]: what [parse_file(input_file)] does.
    - [open_output]: what [open(output_file, "w")] does.
    - [to_file bib_data]: what [bib_data.to_file(out_file, bib_format="bibtex")]
      does: it raises (the BibTeX writer raises [BibTeXError] on a field
      value with unbalanced braces and [TypeError] on one that is not a
      string), or it writes the file, given by the bibliography that
      [parse_file] would read back from it.  The writer encodes what it
      writes for LaTeX, so that what is read back need not be [bib_data]. *)
Record Files : Type := mkFiles {
  parse_file : result BibliographyData;
  open_output : result unit;
  to_file : BibliographyData → result BibliographyData
}.

(** The output file after a run: not opened; opened for writing and left
    with what the writer wrote before it raised; or written in full. *)
Inductive file_state : Type :=
| Untouched
| Truncated
| Written (stored : BibliographyData).

(** A run: how it ended (with the count it reports, or with an exception),
    the queries and assignments it made, the bibliography handed to the
    writer, if the run got that far, and the output file. *)
Record Run : Type := mkRun {
  outcome : result nat;
  world : World;
  handed_to_writer : option BibliographyData;
  output_file : file_state
}.

Definition start : World := {| queries := []; doi_writes := [] |}.

Definition process_bib_file (fs : Files) (reg : registry) : Run :=
  match parse_file fs with
  | Raise e =>
      {| outcome := Raise e; world := start;
         handed_to_writer := None; output_file := Untouched |}
  | Ret bib_data =>
      match for_entries reg bib_data 0 start with
      | (Raise e, w) =>
          {| outcome := Raise e; world := w;
             handed_to_writer := None; output_file := Untouched |}
      | (Ret (bib_data', updated_count), w) =>
          match open_output fs with
          | Raise e =>
              {| outcome := Raise e; world := w;
                 handed_to_writer := None; output_file := Untouched |}
          | Ret _ =>
              match to_file fs bib_data' with
              | Raise e =>
                  {| outcome := Raise e; world := w;
                     handed_to_writer := Some bib_data';
                     output_file := Truncated |}
              | Ret stored =>
                  {| outcome := Ret updated_count; world := w;
                     handed_to_writer := Some bib_data';
                     output_file := Written stored |}
              end
          end
      end
  end.


(** ** Definitions used to state the properties *)

Module difflib_spec.
Import difflib.
Section Spec.
Context `{Countable A}.

(** The indices of [x] in [b], counted from [i], in ascending order: what
    [__chain_b] stores under [x]. *)
Fixpoint positions (x : A) (i : nat) (b : list A) : list nat :=
  match b with
  | [] => []
  | y :: b' =>
      if decide (x = y) then i :: positions x (S i) b'
      else positions x (S i) b'
  end.

(** The number of consecutive positions ending at [i] whose element has
    candidates in [b2j]. *)
Fixpoint run (sm : SequenceMatcher (A := A)) (i : nat) : nat :=
  let before := match i with O => 0 | S i' => run sm i' end in
  match candidates sm i with
  | [] => 0
  | _ :: _ => S before
  end.

Definition run_before (sm : SequenceMatcher (A := A)) (i : nat) : nat :=
  match i with
  | O => 0
  | S i' => run sm i'
  end.

(** What holds of [(j2len, best)] when [find_longest_match(0, n, 0, n)]
    enters row [i], for a sequence compared with itself: the best block is
    on the diagonal. *)
Definition diag_outer (sm : SequenceMatcher (A := A)) (i : nat)
    (st : gmap nat nat * Match) : Prop :=
  st.2.1.1 = st.2.1.2 ∧ st.2.1.1 + st.2.2 ≤ i ∧
  (∀ i', i' < i → run sm i' ≤ st.2.2) ∧
  (∀ j v, st.1 !! j = Some v → v ≤ run_before sm i ∧ v ≤ run sm j) ∧
  j2lenget_pred st.1 i = run_before sm i.

(** The same inside row [i], after the candidates [pre]. *)
Definition diag_inner (sm : SequenceMatcher (A := A)) (i : nat)
    (pre : list nat) (st : gmap nat nat * Match) : Prop :=
  st.2.1.1 = st.2.1.2 ∧ st.2.1.1 + st.2.2 ≤ S i ∧
  (∀ i', i' < i → run sm i' ≤ st.2.2) ∧
  (i ∈ pre → run sm i ≤ st.2.2) ∧
  (∀ j v, st.1 !! j = Some v → v ≤ run sm i ∧ v ≤ run sm j) ∧
  (i ∈ pre → st.1 !! i = Some (run sm i)).

(** [sum(triple[-1] for triple in blocks)] *)
Definition matched (blocks : list Match) : nat :=
  foldr (λ triple acc, size triple + acc) 0 blocks.

(** The elements of [a], and of [b], in the ranges still queued. *)
Definition queue_width_a (queue : list (nat * nat * nat * nat)) : nat :=
  foldr (λ q acc, (q.1.1.2 - q.1.1.1) + acc) 0 queue.

Definition queue_width_b (queue : list (nat * nat * nat * nat)) : nat :=
  foldr (λ q acc, (q.2 - q.1.2) + acc) 0 queue.

(** [a[p] == b[q]], both in range. *)
Definition matches_at (sm : SequenceMatcher (A := A)) (p q : nat) : Prop :=
  ∃ x, sm_a sm !! p = Some x ∧ sm_b sm !! q = Some x.

(** [a[i:i+k] == b[j:j+k]] for a block [(i, j, k)]. *)
Definition block_ok (sm : SequenceMatcher (A := A)) (m : Match) : Prop :=
  ∀ t, t < m.2 → matches_at sm (m.1.1 + t) (m.1.2 + t).

(** The most that the ranges still queued can match. *)
Definition queue_potential (queue : list (nat * nat * nat * nat)) : nat :=
  foldr (λ q acc, (q.1.1.2 - q.1.1.1) `min` (q.2 - q.1.2) + acc) 0 queue.

(** The work left in the queue of [get_matching_blocks]. *)
Definition queue_measure (queue : list (nat * nat * nat * nat)) : nat :=
  foldr (λ q acc, 2 * (q.1.1.2 - q.1.1.1) + 1 + acc) 0 queue.

End Spec.
End difflib_spec.

(** The match rule of line 31 between the requested author and one
    candidate family name. *)
Definition accepts (author candidate : string) : Prop :=
  (Q2Qc 0.8 < similar (lower candidate) (lower author))%Qc.

#[global] Instance accepts_dec author candidate : Decision (accepts author candidate).
Proof. unfold accepts. apply _. Defined.

(** The status codes on which [raise_for_status] raises. *)
Definition error_status (status_code : Z) : Prop :=
  (400 ≤ status_code < 600)%Z.

(** A decoded body of the expected shape
    [{"message": {"items": [item, ...]}}] whose first item is the object
    [item]. *)
Definition top_item (data : value) (item : gmap string value)
    (rest : list value) : Prop :=
  ∃ d message,
    data = VDict d ∧ d !! "message" = Some (VDict message) ∧
    message !! "items" = Some (VList (VDict item :: rest)).

(** An author record (an object) with the family name [family]. *)
Definition has_family (record : value) (family : value) : Prop :=
  ∃ r, record = VDict r ∧ r !! "family" = Some family.

(** The world after one more query. *)
Definition after_query (w : World) (title : value) : World :=
  {| queries := queries w ++ [title]; doi_writes := doi_writes w |}.

(** The registry of the examples: it answers every query with status
    [status_code] and the body
    [{"message": {"items": [{"DOI": "10.1/X", "author": [{"family": "Smith"}]}]}}]. *)
Definition mock_item : gmap string value :=
  {[ "DOI" := VStr "10.1/X";
     "author" := VList [VDict {[ "family" := VStr "Smith" ]}] ]}.

Definition mock_data : value :=
  VDict {[ "message" := VDict {[ "items" := VList [VDict mock_item] ]} ]}.

Definition mock_registry (status_code : Z) : registry :=
  λ _ _, Response status_code (Some mock_data).

(** A registry out of reach: every query ends in a connection error. *)
Definition unreachable_registry : registry :=
  λ _ _, GetRaises (RequestException ConnectionError).

(** A registry that answers every query with status 200 and the body [{}]. *)
Definition empty_registry : registry :=
  λ _ _, Response 200 (Some (VDict ∅)).

(** A registry whose every answer is status 200 with a top item that has a
    DOI and no ["author"] key. *)
Definition anonymous_registry : registry :=
  λ _ _, Response 200
           (Some (VDict {[ "message" :=
              VDict {[ "items" := VList [VDict {[ "DOI" := VStr "10.1/X" ]}] ]} ]})).

(** ["doi" in entry.fields] *)
Definition has_doi (entry : Entry) : bool :=
  match fields entry !! "doi" with
  | Some _ => true
  | None => false
  end.

(** The reply to the query for [entry], sent after the queries [hist], has a
    positive match decision for the first author of [entry] and carries the
    DOI [doi]. *)
Definition positive_match (reg : registry) (hist : list value) (entry : Entry)
    (doi : value) : Prop :=
  ∃ first_author status_code data item rest authors candidate,
    first_last_name (default [] (persons entry !! "author")) = Ret first_author ∧
    reg hist (default (VStr "") (fields entry !! "title"))
      = Response status_code (Some data) ∧
    ¬ error_status status_code ∧
    top_item data item rest ∧
    crossref_authors (VDict item) = Ret authors ∧
    VStr candidate ∈ authors ∧
    accepts first_author candidate ∧
    item !! "DOI" = Some doi.






(** Example bibliographies. *)
Definition entry_smith : Entry :=
  {| fields := {[ "title" := VStr "Some Title" ]};
     persons := {[ "author" := [mkPerson ["Smith"%string]] ]} |}.

Definition entry_with_doi : Entry :=
  {| fields := {[ "title" := VStr "Other Title"; "doi" := VStr "10.2/Y" ]};
     persons := {[ "author" := [mkPerson ["Jones"%string]] ]} |}.


Definition two_entries : BibliographyData :=
  [("k1"%string, entry_smith); ("k2"%string, entry_with_doi)].

(** Files in order: the input parses to [bib_data], the output opens, and
    what the writer writes reads back as what it was given. *)
Definition readable_writable (bib_data : BibliographyData) : Files :=
  {| parse_file := Ret bib_data; open_output := Ret ();
     to_file := λ written, Ret written |}.

(** A registry whose every answer is status 200 with the JSON body [null]. *)
Definition null_registry : registry :=
  λ _ _, Response 200 (Some VNone).

(** The objects that are neither a container nor a string: [None], a [bool],
    an [int], a [float]. *)
Definition scalar (v : value) : bool :=
  match v with
  | VNone | VBool _ | VInt _ | VFloat _ => true
  | VStr _ | VList _ | VDict _ => false
  end.

(** The objects that are a [dict]. *)
Definition is_dict (v : value) : bool :=
  match v with
  | VDict _ => true
  | _ => false
  end.

(** The entry after [entry.fields["doi"] = doi]. *)
Definition with_doi (entry : Entry) (doi : value) : Entry :=
  {| fields := <["doi" := doi]> (fields entry); persons := persons entry |}.

(** [entry.fields.get("title", "")] and [entry.persons.get("author", [])]. *)
Definition title_of (entry : Entry) : value :=
  default (VStr "") (fields entry !! "title").

Definition authors_of (entry : Entry) : list Person :=
  default [] (persons entry !! "author").

(** The entries the loop sends a query for: no DOI, a title and an author. *)
Definition eligible (entry : Entry) : bool :=
  negb (has_doi entry) && title_and_authors (title_of entry) (authors_of entry).

(** A registry whose answer depends on the title only. *)
Definition stateless (reg : registry) : Prop :=
  ∀ hist title, reg hist title = reg [] title.

(** A registry whose every answer is status 200 with a top item that is the
    number 7. *)
Definition number_item_registry : registry :=
  λ _ _, Response 200
           (Some (VDict {[ "message" := VDict {[ "items" := VList [VInt 7] ]} ]})).

(** A registry whose every answer is status 200 with a top item whose author
    list is [[{"family": "Smith"}, null]]. *)
Definition null_author_registry : registry :=
  λ _ _, Response 200
           (Some (VDict {[ "message" := VDict {[ "items" := VList [VDict
              {[ "DOI" := VStr "10.1/X";
                 "author" := VList [VDict {[ "family" := VStr "Smith" ]}; VNone] ]}
              ] ]} ]})).

(** An entry without authors, and one without a title. *)
Definition entry_no_author : Entry :=
  {| fields := {[ "title" := VStr "Some Title" ]}; persons := ∅ |}.

Definition entry_no_title : Entry :=
  {| fields := ∅; persons := {[ "author" := [mkPerson ["Smith"%string]] ]} |}.

(** A writer that encodes, for the examples: like the BibTeX writer of
    [pybtex], it writes an underscore (code point 95) of a field value with
    a backslash (code point 92) before it, so that the value [10.2/x_y] is read back
    with a backslash between [x] and [_].  It stands for no more of the
    writer than that. *)
Fixpoint escape_underscores (s : string) : string :=
  match s with
  | EmptyString => EmptyString
  | String c s' =>
      if Ascii.eqb c (Ascii.ascii_of_nat 95)
      then String (Ascii.ascii_of_nat 92) (String c (escape_underscores s'))
      else String c (escape_underscores s')
  end.

Definition encode_field (v : value) : value :=
  match v with
  | VStr s => VStr (escape_underscores s)
  | _ => v
  end.

Definition encode_entry (entry : Entry) : Entry :=
  {| fields := encode_field <$> fields entry; persons := persons entry |}.

Definition readable_encoded (bib_data : BibliographyData) : Files :=
  {| parse_file := Ret bib_data; open_output := Ret ();
     to_file := λ written, Ret ((λ ke, (ke.1, encode_entry ke.2)) <$> written) |}.

Definition entry_underscore_doi : Entry :=
  {| fields := {[ "title" := VStr "Other Title"; "doi" := VStr "10.2/x_y" ]};
     persons := {[ "author" := [mkPerson ["Jones"%string]] ]} |}.



(** A registry whose every answer is status 200 with two items.  The top
    item has the author records
    [[{"family": "Jones"}, {"given": "A."}, {"family": "Smith"}, {"family": 5}]];
    the second item has another DOI and the author [Smith]. *)
Definition top_item_of_two : gmap string value :=
  {[ "DOI" := VStr "10.1/X";
     "author" := VList [VDict {[ "family" := VStr "Jones" ]};
                        VDict {[ "given" := VStr "A." ]};
                        VDict {[ "family" := VStr "Smith" ]};
                        VDict {[ "family" := VInt 5 ]}] ]}.

Definition second_item_of_two : value :=
  VDict {[ "DOI" := VStr "10.9/Z";
           "author" := VList [VDict {[ "family" := VStr "Smith" ]}] ]}.

Definition two_item_data : value :=
  VDict {[ "message" :=
    VDict {[ "items" := VList [VDict top_item_of_two; second_item_of_two] ]} ]}.

Definition two_item_registry : registry :=
  λ _ _, Response 200 (Some two_item_data).

(** A registry whose every answer is status 200 with a top item whose author
    list is [[{"family": "Smith"}, 7]]. *)
Definition number_author_registry : registry :=
  λ _ _, Response 200
           (Some (VDict {[ "message" := VDict {[ "items" := VList [VDict
              {[ "DOI" := VStr "10.1/X";
                 "author" := VList [VDict {[ "family" := VStr "Smith" ]}; VInt 7] ]}
              ] ]} ]})).


(** ** Properties of [difflib.SequenceMatcher] *)

Module difflib_facts.
Import difflib difflib_spec.
Section Index.
Context `{Countable A}.
Implicit Types (b : list A) (m : gmap A (list nat)).

Lemma positions_elem x b : ∀ i j,
  j ∈ positions x i b ↔ i ≤ j ∧ b !! (j - i) = Some x.
Proof.
  induction b as [|y b IH]; intros i j; simpl.
  - rewrite elem_of_nil, lookup_nil. split; [done|]. by intros [_ ?].
  - destruct (decide (x = y)) as [->|Hne].
    + rewrite elem_of_cons, IH. split.
      * intros [->|[Hle Hl]].
        -- split; [lia|]. by replace (i - i) with 0 by lia.
        -- split; [lia|]. by replace (j - i) with (S (j - S i)) by lia.
      * intros [Hle Hl]. destruct (decide (j = i)) as [->|Hji]; [by left|].
        right. split; [lia|].
        by replace (j - i) with (S (j - S i)) in Hl by lia.
    + rewrite IH. split.
      * intros [Hle Hl]. split; [lia|].
        by replace (j - i) with (S (j - S i)) by lia.
      * intros [Hle Hl]. destruct (decide (j = i)) as [->|Hji].
        { replace (i - i) with 0 in Hl by lia. simpl in Hl. congruence. }
        split; [lia|].
        by replace (j - i) with (S (j - S i)) in Hl by lia.
Qed.

Lemma positions_sorted x b : ∀ i, StronglySorted lt (positions x i b).
Proof.
  induction b as [|y b IH]; intros i; simpl; [constructor|].
  destruct (decide (x = y)); [|apply IH].
  constructor; [apply IH|].
  apply Forall_forall. intros j Hj. apply positions_elem in Hj. lia.
Qed.

Lemma positions_nil x b i : x ∉ b → positions x i b = [].
Proof.
  intros Hx. destruct (positions x i b) as [|j l] eqn:E; [done|].
  assert (Hj : j ∈ positions x i b) by (rewrite E; left).
  apply positions_elem in Hj as [_ Hj]. apply list_elem_of_lookup_2 in Hj. done.
Qed.

Lemma enumerate_b_lookup x b : ∀ i m,
  enumerate_b i b m !! x =
    match positions x i b with
    | [] => m !! x
    | ps => Some (default [] (m !! x) ++ ps)
    end.
Proof.
  induction b as [|y b IH]; intros i m; simpl; [done|].
  rewrite IH. unfold setdefault_append.
  destruct (decide (x = y)) as [->|Hne].
  - rewrite lookup_insert_eq. simpl.
    destruct (positions y (S i) b); [done|]. by rewrite <- app_assoc.
  - by rewrite lookup_insert_ne.
Qed.

(** What [__chain_b] leaves under a key is the full ascending list of the
    positions of that key in [b]; purging removes whole keys only. *)
Lemma chain_b_lookup isjunk autojunk a b x js :
  b2j (__chain_b isjunk autojunk a b) !! x = Some js →
  js = positions x 0 b ∧ js ≠ [].
Proof.
  unfold __chain_b, purge. simpl.
  intros Hl. apply map_lookup_filter_Some in Hl as [Hl _].
  apply map_lookup_filter_Some in Hl as [Hl _].
  rewrite enumerate_b_lookup, lookup_empty in Hl. simpl in Hl.
  destruct (positions x 0 b); [done|]. by simplify_eq.
Qed.

Lemma chain_b_lookup_notin isjunk autojunk a b x :
  x ∉ b → b2j (__chain_b isjunk autojunk a b) !! x = None.
Proof.
  intros Hx. destruct (b2j _ !! x) as [js|] eqn:E; [|done].
  apply chain_b_lookup in E as [-> Hne]. by rewrite positions_nil in Hne.
Qed.

Lemma chain_b_candidates isjunk autojunk a b i j :
  j ∈ candidates (__chain_b isjunk autojunk a b) i →
  ∃ x, a !! i = Some x ∧ b !! j = Some x ∧
       candidates (__chain_b isjunk autojunk a b) i = positions x 0 b.
Proof.
  unfold candidates. change (sm_a (__chain_b isjunk autojunk a b)) with a.
  destruct (a !! i) as [x|] eqn:Ea; [|by intros ?%elem_of_nil].
  destruct (b2j _ !! x) as [js|] eqn:Eb; simpl; [|by intros ?%elem_of_nil].
  apply chain_b_lookup in Eb as [-> _]. intros Hj. exists x.
  split_and!; [done| |done].
  apply positions_elem in Hj as [_ Hj]. by replace (j - 0) with j in Hj by lia.
Qed.
End Index.

(** *** The block found by [find_longest_match] lies in the range searched,
    and the queue of [get_matching_blocks] empties *)
Section Bounds.
Context `{Countable A}.
Variable sm : SequenceMatcher (A := A).

Lemma scan_row_bounds blo bhi alo i j2len js : ∀ newj2len best,
  alo ≤ i →
  (∀ j v, j2len !! j = Some v → v ≤ i - alo) →
  (∀ j v, newj2len !! j = Some v → v ≤ S i - alo) →
  alo ≤ best.1.1 → best.1.1 + best.2 ≤ S i →
  let r := scan_row blo bhi i j2len js newj2len best in
  (∀ j v, r.1 !! j = Some v → v ≤ S i - alo) ∧
  alo ≤ r.2.1.1 ∧ r.2.1.1 + r.2.2 ≤ S i.
Proof.
  induction js as [|j js IH]; intros newj2len best Hi Hold Hnew Hlo Hhi; simpl.
  { done. }
  case_bool_decide; [by apply IH|].
  case_bool_decide; [done|].
  assert (Hk : j2lenget_pred j2len j + 1 ≤ S i - alo).
  { unfold j2lenget_pred. destruct j as [|j']; [lia|].
    destruct (j2len !! j') as [v|] eqn:E; simpl; [|lia].
    apply Hold in E. lia. }
  apply IH; [done|done| | |].
  - intros j0 v. rewrite lookup_insert. case_decide; [|by apply Hnew].
    intros [= <-]. done.
  - case_bool_decide; simpl; [lia|done].
  - case_bool_decide; simpl; [lia|done].
Qed.

Lemma scan_rows_bounds alo ahi blo bhi :
  alo ≤ ahi →
  alo ≤ (scan_rows sm alo ahi blo bhi).1.1 ∧
  (scan_rows sm alo ahi blo bhi).1.1 + (scan_rows sm alo ahi blo bhi).2 ≤ ahi.
Proof.
  intros Hle. unfold scan_rows.
  assert (Hinv : ∀ len,
    let st := fold_left (scan_step sm blo bhi) (seq alo len) (∅, (alo, blo, 0)) in
    (∀ j v, st.1 !! j = Some v → v ≤ len) ∧
    alo ≤ st.2.1.1 ∧ st.2.1.1 + st.2.2 ≤ alo + len).
  { induction len as [|len IH]; cbv zeta.
    - simpl. split; [|lia]. intros j v. by rewrite lookup_empty.
    - rewrite seq_S, fold_left_app. simpl. destruct IH as (Hm & Hlo & Hhi).
      set (st := fold_left _ _ _) in *. unfold scan_step.
      pose proof (scan_row_bounds blo bhi alo (alo + len) _ (candidates sm (alo + len))
                    ∅ _ ltac:(lia)
                    ltac:(intros j v Hjv; apply Hm in Hjv; lia)
                    ltac:(intros j v; by rewrite lookup_empty)
                    Hlo ltac:(lia)) as (Hm' & Hlo' & Hhi').
      split; [|lia]. intros j v Hjv. apply Hm' in Hjv. lia. }
  destruct (Hinv (ahi - alo)) as (_ & Hlo & Hhi). split; [done|lia].
Qed.

Lemma extend_back_bounds junk alo blo : ∀ besti bestj bestsize,
  alo ≤ besti →
  let r := extend_back sm junk alo blo besti bestj bestsize in
  alo ≤ r.1.1 ∧ r.1.1 + r.2 = besti + bestsize.
Proof.
  induction besti as [|i' IH]; intros bestj bestsize Hlo; simpl; [done|].
  destruct bestj as [|j']; [done|].
  destruct (_ && _) eqn:E; [|done].
  apply andb_true_iff in E as [E _]. apply andb_true_iff in E as [E _].
  apply bool_decide_eq_true in E.
  destruct (IH j' (S bestsize) ltac:(lia)) as [? ?]. split; [done|lia].
Qed.

Lemma extend_fwd_bounds junk ahi bhi besti bestj : ∀ gap bestsize,
  besti + bestsize ≤ ahi →
  bestsize ≤ extend_fwd sm junk ahi bhi besti bestj gap bestsize ∧
  besti + extend_fwd sm junk ahi bhi besti bestj gap bestsize ≤ ahi.
Proof.
  induction gap as [|gap IH]; intros bestsize Hhi; simpl; [lia|].
  destruct (_ && _) eqn:E; [|lia].
  apply andb_true_iff in E as [E _]. apply andb_true_iff in E as [E _].
  apply bool_decide_eq_true in E.
  destruct (IH (S bestsize) ltac:(lia)). lia.
Qed.

Lemma extend_fwd_S junk ahi bhi besti bestj gap bestsize :
  extend_fwd sm junk ahi bhi besti bestj (S gap) bestsize =
  if bool_decide (besti + bestsize < ahi)
     && bool_decide (bestj + bestsize < bhi)
     && same_at sm junk (besti + bestsize) (bestj + bestsize)
  then extend_fwd sm junk ahi bhi besti bestj gap (S bestsize)
  else bestsize.
Proof. reflexivity. Qed.

(** The bound [gap] of [extend_fwd] is never what stops the loop. *)
Lemma extend_fwd_guard junk ahi bhi besti bestj : ∀ gap bestsize,
  ahi - (besti + bestsize) ≤ gap →
  extend_fwd sm junk ahi bhi besti bestj gap bestsize =
  extend_fwd sm junk ahi bhi besti bestj (S gap) bestsize.
Proof.
  induction gap as [|gap IH]; intros bestsize Hgap.
  - rewrite extend_fwd_S. simpl.
    by rewrite (bool_decide_eq_false_2 (besti + bestsize < ahi)) by lia.
  - rewrite (extend_fwd_S _ _ _ _ _ (S gap)), (extend_fwd_S _ _ _ _ _ gap).
    destruct (bool_decide (besti + bestsize < ahi)) eqn:E; [|done].
    apply bool_decide_eq_true in E.
    destruct (_ && _); [|done]. apply IH. lia.
Qed.

Lemma extend_bounds junk alo ahi blo bhi (m : Match) :
  alo ≤ m.1.1 → m.1.1 + m.2 ≤ ahi →
  alo ≤ (extend sm junk alo ahi blo bhi m).1.1 ∧
  (extend sm junk alo ahi blo bhi m).1.1 + (extend sm junk alo ahi blo bhi m).2 ≤ ahi.
Proof.
  intros Hlo Hhi. unfold extend.
  pose proof (extend_back_bounds junk alo blo m.1.1 m.1.2 m.2 Hlo) as [Hlo' Hsum].
  destruct (extend_back sm junk alo blo m.1.1 m.1.2 m.2) as [[besti bestj] bestsize].
  simpl in *. split; [done|].
  apply extend_fwd_bounds. lia.
Qed.

Lemma find_longest_match_bounds alo ahi blo bhi :
  alo ≤ ahi →
  alo ≤ (find_longest_match sm alo ahi blo bhi).1.1 ∧
  (find_longest_match sm alo ahi blo bhi).1.1
    + (find_longest_match sm alo ahi blo bhi).2 ≤ ahi.
Proof.
  intros Hle. unfold find_longest_match.
  destruct (scan_rows_bounds alo ahi blo bhi Hle) as [H1 H2].
  destruct (extend_bounds false alo ahi blo bhi _ H1 H2) as [H3 H4].
  by apply extend_bounds.
Qed.

Lemma blocks_loop_terminates : ∀ fuel queue matching_blocks,
  Forall (λ q : nat * nat * nat * nat, q.1.1.1 ≤ q.1.1.2) queue →
  queue_measure queue < fuel →
  is_Some (blocks_loop sm fuel queue matching_blocks).
Proof.
  induction fuel as [|fuel IH]; intros queue blocks Hq Hfuel; [lia|].
  destruct queue as [|[[[alo ahi] blo] bhi] queue]; simpl; [by eexists|].
  apply Forall_cons in Hq as [Hle Hq]. simpl in Hle, Hfuel.
  pose proof (find_longest_match_bounds alo ahi blo bhi Hle) as [Hlo Hhi].
  destruct (find_longest_match sm alo ahi blo bhi) as [[i j] k]. simpl in Hlo, Hhi.
  case_bool_decide as Hk; [|apply IH; [done|lia]].
  apply IH.
  - destruct (_ && _); destruct (_ && _); repeat constructor; simpl; done || lia.
  - destruct (_ && _); destruct (_ && _); simpl; lia.
Qed.

(** [get_matching_blocks] never reads the default of its [while] loop. *)
Lemma get_matching_blocks_terminates :
  is_Some (blocks_loop sm (queue_fuel sm)
             [(0, length (sm_a sm), 0, length (sm_b sm))] []).
Proof.
  apply blocks_loop_terminates.
  - repeat constructor. simpl. lia.
  - unfold queue_fuel. simpl. lia.
Qed.
End Bounds.

(** *** A sequence compared with itself *)
Section Diagonal.
Context `{Countable A}.
Variable sm : SequenceMatcher (A := A).
Hypothesis Hab : sm_b sm = sm_a sm.
Hypothesis Hjunk : bjunk sm = ∅.
Hypothesis Hcand : ∀ i j, j ∈ candidates sm i →
  j < length (sm_a sm) ∧ candidates sm j = candidates sm i.
Hypothesis Hsorted : ∀ i, StronglySorted lt (candidates sm i).
Hypothesis Hself : ∀ i, candidates sm i ≠ [] → i ∈ candidates sm i.

Lemma run_le i : run sm i ≤ S i.
Proof.
  induction i as [|i IH]; simpl; destruct (candidates sm _); lia.
Qed.

Lemma run_cons i : candidates sm i ≠ [] → run sm i = S (run_before sm i).
Proof. destruct i; simpl; destruct (candidates sm _); done. Qed.

Lemma run_nil i : candidates sm i = [] → run sm i = 0.
Proof. intros E. destruct i; simpl; by rewrite E. Qed.

Lemma j2lenget_pred_le j2len i j :
  (∀ j v, j2len !! j = Some v → v ≤ run_before sm i ∧ v ≤ run sm j) →
  j2lenget_pred j2len j ≤ run_before sm i ∧
  j2lenget_pred j2len j ≤ run_before sm j.
Proof.
  intros Hm. destruct j as [|j']; simpl; [lia|].
  destruct (j2len !! j') as [v|] eqn:E; simpl; [|lia]. by apply Hm.
Qed.

Lemma scan_row_diag i j2len :
  (∀ j v, j2len !! j = Some v → v ≤ run_before sm i ∧ v ≤ run sm j) →
  j2lenget_pred j2len i = run_before sm i →
  ∀ rest pre newj2len best,
  candidates sm i = pre ++ rest →
  diag_inner sm i pre (newj2len, best) →
  diag_inner sm i (pre ++ rest)
    (scan_row 0 (length (sm_a sm)) i j2len rest newj2len best).
Proof.
  intros Hm Hd. induction rest as [|j rest IH]; intros pre new best Hjs Hinv.
  { by rewrite app_nil_r. }
  assert (Hj : j ∈ candidates sm i).
  { rewrite Hjs. apply elem_of_app. right. left. }
  destruct (Hcand i j Hj) as [Hjn Hcj].
  assert (Hne : candidates sm i ≠ []).
  { intros E. rewrite E in Hj. by apply elem_of_nil in Hj. }
  pose proof (run_cons i Hne) as Hri.
  pose proof (run_cons j ltac:(by rewrite Hcj)) as Hrj.
  destruct (j2lenget_pred_le j2len i j Hm) as [Hk1 Hk2].
  cbn [scan_row]. rewrite (bool_decide_eq_false_2 (j < 0)) by lia.
  rewrite (bool_decide_eq_false_2 (length (sm_a sm) ≤ j)) by lia.
  replace (pre ++ j :: rest) with ((pre ++ [j]) ++ rest)
    by (by rewrite <- app_assoc).
  apply IH; [by rewrite <- app_assoc|].
  destruct best as [[bi bj] bs].
  destruct Hinv as (Hdiag & Hsum & Hrows & Hrow & Hnew & Hat). simpl in *.
  assert (Hpre : i < j → i ∈ pre).
  { intros Hij. pose proof (Hself i Hne) as Hi. rewrite Hjs in Hi.
    apply elem_of_app in Hi as [Hi|Hi]; [done|].
    apply elem_of_cons in Hi as [->|Hi]; [lia|].
    pose proof (Hsorted i) as Hs. rewrite Hjs in Hs.
    apply StronglySorted_app_1_r, StronglySorted_cons in Hs as [Hs _].
    rewrite Forall_forall in Hs. apply Hs in Hi. lia. }
  assert (Hnew' : ∀ j0 v, <[j := j2lenget_pred j2len j + 1]> new !! j0 = Some v →
                          v ≤ run sm i ∧ v ≤ run sm j0).
  { intros j0 v. rewrite lookup_insert. case_decide as Ej; [|by apply Hnew].
    intros [= <-]. subst j0. lia. }
  assert (Hat' : i ∈ pre ++ [j] →
                 <[j := j2lenget_pred j2len j + 1]> new !! i = Some (run sm i)).
  { intros Hi. rewrite lookup_insert. case_decide as Ej.
    - subst j. f_equal. lia.
    - apply Hat. apply elem_of_app in Hi as [Hi|Hi]; [done|].
      by apply list_elem_of_singleton in Hi. }
  unfold diag_inner. simpl.
  case_bool_decide as Hbest; simpl.
  - assert (j = i) as ->.
    { destruct (decide (j < i)) as [Hlt|Hge].
      - specialize (Hrows j Hlt). lia.
      - destruct (decide (i < j)) as [Hlt|Hge']; [|lia].
        specialize (Hrow (Hpre Hlt)). lia. }
    pose proof (run_le i). split_and!; [done|lia| | |done|done].
    + intros i' Hi'. specialize (Hrows i' Hi'). lia.
    + intros _. lia.
  - split_and!; [done|done|done| |done|done].
    intros Hi. apply elem_of_app in Hi as [Hi|Hi]; [by apply Hrow|].
    apply list_elem_of_singleton in Hi as <-. lia.
Qed.

Lemma scan_step_diag i st :
  diag_outer sm i st →
  diag_outer sm (S i) (scan_step sm 0 (length (sm_a sm)) st i).
Proof.
  intros (Hdiag & Hsum & Hrows & Hm & Hd). unfold scan_step.
  pose proof (scan_row_diag i st.1 Hm Hd (candidates sm i) [] ∅ st.2 eq_refl)
    as Hrow.
  simpl in Hrow.
  destruct Hrow as (Hdiag' & Hsum' & Hrows' & Hrow' & Hnew' & Hat').
  { unfold diag_inner. simpl. split_and!; [done|lia|done| | |].
    - by intros ?%elem_of_nil.
    - intros j v. by rewrite lookup_empty.
    - by intros ?%elem_of_nil. }
  set (r := scan_row _ _ _ _ _ _ _) in *.
  destruct (candidates sm i) as [|j0 js] eqn:E.
  - subst r. simpl in *. pose proof (run_nil i E) as Hr.
    unfold diag_outer. simpl. split_and!; [done|lia| | |].
    + intros i' Hi'. destruct (decide (i' = i)) as [->|]; [lia|].
      apply Hrows. lia.
    + intros j v. by rewrite lookup_empty.
    + by rewrite lookup_empty.
  - assert (Hi : i ∈ j0 :: js).
    { rewrite <- E. apply Hself. by rewrite E. }
    unfold diag_outer. simpl. split_and!; [done|done| |done|].
    + intros i' Hi'. destruct (decide (i' = i)) as [->|]; [by apply Hrow'|].
      apply Hrows'. lia.
    + by rewrite (Hat' Hi).
Qed.

Lemma scan_rows_diag :
  let m := scan_rows sm 0 (length (sm_a sm)) 0 (length (sm_a sm)) in
  m.1.1 = m.1.2 ∧ m.1.1 + m.2 ≤ length (sm_a sm).
Proof.
  unfold scan_rows. rewrite Nat.sub_0_r.
  assert (Hinv : ∀ n, diag_outer sm n
    (fold_left (scan_step sm 0 (length (sm_a sm))) (seq 0 n) (∅, (0, 0, 0)))).
  { induction n as [|n IH].
    - unfold diag_outer. simpl. split_and!; [done|done| | |done].
      + intros i' Hi'. lia.
      + intros j v. by rewrite lookup_empty.
    - rewrite seq_S, fold_left_app. simpl. by apply scan_step_diag. }
  destruct (Hinv (length (sm_a sm))) as (Hdiag & Hsum & _). done.
Qed.

Lemma same_at_diag i : i < length (sm_a sm) → same_at sm false i i = true.
Proof.
  intros Hi. unfold same_at. rewrite Hab.
  destruct (lookup_lt_is_Some_2 _ _ Hi) as [x ->].
  rewrite Hjunk. rewrite (bool_decide_eq_false_2 (x ∈ ∅)) by set_solver.
  apply andb_true_iff. split; by apply bool_decide_eq_true_2.
Qed.

Lemma extend_back_diag : ∀ besti bestsize,
  besti ≤ length (sm_a sm) →
  extend_back sm false 0 0 besti besti bestsize = (0, 0, besti + bestsize).
Proof.
  induction besti as [|i IH]; intros bestsize Hle; cbn [extend_back]; [done|].
  rewrite same_at_diag by lia.
  rewrite (bool_decide_eq_true_2 (0 < S i)) by lia. cbn [andb].
  rewrite IH by lia. f_equal. lia.
Qed.

Lemma extend_fwd_diag : ∀ gap bestsize,
  bestsize + gap = length (sm_a sm) →
  extend_fwd sm false (length (sm_a sm)) (length (sm_a sm)) 0 0 gap bestsize
  = length (sm_a sm).
Proof.
  induction gap as [|gap IH]; intros bestsize Hle; cbn [extend_fwd]; [lia|].
  rewrite same_at_diag by (simpl; lia).
  rewrite (bool_decide_eq_true_2 (0 + bestsize < length (sm_a sm))) by lia.
  cbn [andb]. apply IH. lia.
Qed.

(** The longest block of a sequence with itself is the whole sequence. *)
Lemma find_longest_match_diag :
  find_longest_match sm 0 (length (sm_a sm)) 0 (length (sm_a sm))
  = (0, 0, length (sm_a sm)).
Proof.
  unfold find_longest_match. destruct scan_rows_diag as [Hdiag Hsum].
  destruct (scan_rows sm 0 _ 0 _) as [[bi bj] bs]. simpl in Hdiag, Hsum.
  subst bj. unfold extend at 2. simpl.
  rewrite extend_back_diag by lia. simpl.
  rewrite extend_fwd_diag by lia.
  unfold extend. simpl. by rewrite Nat.sub_diag.
Qed.
End Diagonal.

(** *** Two sequences without a common element *)
Section Disjoint.
Context `{Countable A}.
Variable sm : SequenceMatcher (A := A).
Hypothesis Hnone : ∀ i, candidates sm i = [].
Hypothesis Hdis : ∀ x, x ∈ sm_a sm → x ∉ sm_b sm.

Lemma scan_rows_disjoint alo ahi blo bhi :
  scan_rows sm alo ahi blo bhi = (alo, blo, 0).
Proof.
  unfold scan_rows.
  assert (Hfold : ∀ l st, (fold_left (scan_step sm blo bhi) l st).2 = st.2).
  { induction l as [|i l IH]; intros st; simpl; [done|].
    rewrite IH. unfold scan_step. by rewrite Hnone. }
  by rewrite Hfold.
Qed.

Lemma same_at_disjoint junk i j : same_at sm junk i j = false.
Proof.
  unfold same_at.
  destruct (sm_a sm !! i) as [x|] eqn:Ea; [|done].
  destruct (sm_b sm !! j) as [y|] eqn:Eb; [|done].
  apply andb_false_iff. right. apply bool_decide_eq_false_2. intros ->.
  apply (Hdis y); by eapply list_elem_of_lookup_2.
Qed.

Lemma extend_disjoint junk alo ahi blo bhi m :
  extend sm junk alo ahi blo bhi m = m.
Proof.
  destruct m as [[besti bestj] bestsize]. unfold extend. simpl.
  assert (extend_back sm junk alo blo besti bestj bestsize
          = (besti, bestj, bestsize)) as ->.
  { destruct besti, bestj; cbn [extend_back]; try done.
    by rewrite same_at_disjoint, andb_false_r. }
  destruct (ahi - (besti + bestsize)); cbn [extend_fwd]; [done|].
  by rewrite same_at_disjoint, andb_false_r.
Qed.

Lemma find_longest_match_disjoint alo ahi blo bhi :
  find_longest_match sm alo ahi blo bhi = (alo, blo, 0).
Proof.
  unfold find_longest_match.
  by rewrite !extend_disjoint, scan_rows_disjoint.
Qed.

Lemma get_matching_blocks_disjoint :
  get_matching_blocks sm = [(length (sm_a sm), length (sm_b sm), 0)].
Proof.
  unfold get_matching_blocks, queue_fuel.
  replace (2 * length (sm_a sm) + 2) with (S (S (2 * length (sm_a sm)))) by lia.
  cbn [blocks_loop]. rewrite find_longest_match_disjoint. done.
Qed.
End Disjoint.

(** *** The matcher that [SequenceMatcher(isjunk, a, b)] builds *)
Section Built.
Context `{Countable A}.

Lemma built_candidates_lt isjunk autojunk (a b : list A) i j :
  j ∈ candidates (__chain_b isjunk autojunk a b) i → j < length b.
Proof.
  intros (x & _ & Hb & _)%chain_b_candidates. by eapply lookup_lt_Some.
Qed.

Lemma built_candidates_sorted isjunk autojunk (a b : list A) i :
  StronglySorted lt (candidates (__chain_b isjunk autojunk a b) i).
Proof.
  destruct (candidates (__chain_b isjunk autojunk a b) i) as [|j js] eqn:E;
    [constructor|].
  assert (Hj : j ∈ candidates (__chain_b isjunk autojunk a b) i)
    by (rewrite E; left).
  apply chain_b_candidates in Hj as (x & _ & _ & Hp).
  rewrite <- E, Hp. apply positions_sorted.
Qed.

Lemma built_candidates_same isjunk autojunk (s : list A) i j :
  j ∈ candidates (__chain_b isjunk autojunk s s) i →
  candidates (__chain_b isjunk autojunk s s) j
  = candidates (__chain_b isjunk autojunk s s) i.
Proof.
  intros (x & Hi & Hj & _)%chain_b_candidates. unfold candidates.
  change (sm_a (__chain_b isjunk autojunk s s)) with s. by rewrite Hi, Hj.
Qed.

Lemma built_candidates_self isjunk autojunk (s : list A) i :
  candidates (__chain_b isjunk autojunk s s) i ≠ [] →
  i ∈ candidates (__chain_b isjunk autojunk s s) i.
Proof.
  intros Hne.
  destruct (candidates (__chain_b isjunk autojunk s s) i) as [|j js] eqn:E;
    [done|].
  assert (Hj : j ∈ candidates (__chain_b isjunk autojunk s s) i)
    by (rewrite E; left).
  apply chain_b_candidates in Hj as (x & Hi & _ & Hp).
  rewrite <- E, Hp. apply positions_elem. split; [lia|].
  by replace (i - 0) with i by lia.
Qed.

Lemma built_candidates_disjoint isjunk autojunk (a b : list A) i :
  (∀ x, x ∈ a → x ∉ b) →
  candidates (__chain_b isjunk autojunk a b) i = [].
Proof.
  intros Hdis. unfold candidates.
  change (sm_a (__chain_b isjunk autojunk a b)) with a.
  destruct (a !! i) as [x|] eqn:E; [|done].
  rewrite chain_b_lookup_notin; [done|].
  apply Hdis. by eapply list_elem_of_lookup_2.
Qed.

Lemma find_longest_match_self autojunk (s : list A) :
  find_longest_match (__chain_b None autojunk s s) 0 (length s) 0 (length s)
  = (0, 0, length s).
Proof.
  apply (find_longest_match_diag (__chain_b None autojunk s s)); try done.
  - intros i j Hj. split.
    + by eapply built_candidates_lt.
    + by apply built_candidates_same.
  - intros i. apply built_candidates_sorted.
  - intros i. apply built_candidates_self.
Qed.

Lemma get_matching_blocks_self autojunk (s : list A) :
  get_matching_blocks (__chain_b None autojunk s s)
  = if bool_decide (length s ≠ 0)
    then [(0, 0, length s); (length s, length s, 0)]
    else [(length s, length s, 0)].
Proof.
  unfold get_matching_blocks, queue_fuel.
  change (sm_a (__chain_b None autojunk s s)) with s.
  change (sm_b (__chain_b None autojunk s s)) with s.
  replace (2 * length s + 2) with (S (S (2 * length s))) by lia.
  cbn [blocks_loop]. rewrite find_longest_match_self.
  case_bool_decide as Hn; [|done].
  rewrite (bool_decide_eq_false_2 (0 < 0)) by lia.
  rewrite (bool_decide_eq_false_2 (0 + length s < length s)) by lia.
  cbn. rewrite (bool_decide_eq_true_2 (0 = 0)) by done. cbn.
  by rewrite bool_decide_eq_true_2.
Qed.
End Built.

Lemma calculate_ratio_all (n : nat) : _calculate_ratio n (n + n) = 1%Qc.
Proof.
  unfold _calculate_ratio. destruct (n + n) as [|m] eqn:E; [done|].
  change 1%Qc with (Q2Qc 1). apply Q2Qc_eq_iff.
  unfold Qeq. cbn [Qnum Qden]. lia.
Qed.

Lemma calculate_ratio_none (length : nat) :
  length ≠ 0 → _calculate_ratio 0 length = 0%Qc.
Proof.
  intros Hn. unfold _calculate_ratio. destruct length as [|m]; [done|].
  change 0%Qc with (Q2Qc 0). apply Q2Qc_eq_iff.
  unfold Qeq. cbn [Qnum Qden]. lia.
Qed.
End difflib_facts.

(** ** Properties of [similar] *)

Lemma similar_unfold (a b : string) :
  similar a b =
  difflib._calculate_ratio
    (foldr (λ triple acc, difflib.size triple + acc) 0
       (difflib.get_matching_blocks (SequenceMatcher_None a b)))
    (length (String.list_ascii_of_string a)
     + length (String.list_ascii_of_string b)).
Proof. reflexivity. Qed.

(** C7.  For every string [s], [similar(s, s)] is exactly [1.0]: the matcher
    finds the whole of [s] as one block (also when [autojunk] sets popular
    characters aside), and the empty string has ratio [1.0] by the guard of
    [_calculate_ratio]. *)
Theorem similar_identical (s : string) : similar s s = 1%Qc.
Proof.
  rewrite similar_unfold. unfold SequenceMatcher_None.
  rewrite difflib_facts.get_matching_blocks_self.
  case_bool_decide as Hn; simpl.
  - rewrite !Nat.add_0_r. apply difflib_facts.calculate_ratio_all.
  - assert (length (String.list_ascii_of_string s) = 0) as -> by lia. done.
Qed.

(** C8, as the specification states it, fails for two empty strings: they
    share no character, and their ratio is [1.0]. *)
Lemma similar_disjoint_empty :
  (∀ c, c ∈ String.list_ascii_of_string "" →
        c ∉ String.list_ascii_of_string "") ∧
  similar "" "" = 1%Qc ∧ similar "" "" ≠ 0%Qc.
Proof.
  split_and!.
  - intros c Hc. by apply elem_of_nil in Hc.
  - by vm_compute.
  - by vm_compute.
Qed.

(** C8, amended.  For every pair of strings that share no character,
    [similar(a, b)] is exactly [0.0], unless both strings are empty, when it
    is [1.0]. *)
Theorem similar_disjoint (a b : string) :
  (∀ c, c ∈ String.list_ascii_of_string a →
        c ∉ String.list_ascii_of_string b) →
  similar a b = if bool_decide (a = "" ∧ b = "") then 1%Qc else 0%Qc.
Proof.
  intros Hdis. rewrite similar_unfold. unfold SequenceMatcher_None.
  rewrite difflib_facts.get_matching_blocks_disjoint.
  - simpl. case_bool_decide as He.
    + destruct He as [-> ->]. done.
    + apply difflib_facts.calculate_ratio_none.
      destruct a, b; simpl; try lia. destruct He. done.
  - intros i. by apply difflib_facts.built_candidates_disjoint.
  - done.
Qed.

Lemma similar_disjoint_witness :
  similar "smith" "wu" = if bool_decide ("smith" = "" ∧ "wu" = "") then 1%Qc else 0%Qc.
Proof.
  apply similar_disjoint. intros c Hc Hc'. simpl in Hc, Hc'.
  repeat (apply elem_of_cons in Hc as [->|Hc]);
    repeat (apply elem_of_cons in Hc' as [Hc'|Hc']; [discriminate Hc'|]);
    by apply elem_of_nil in Hc' || by apply elem_of_nil in Hc.
Defined.

(** ** Properties of [search_doi] *)

Lemma search_doi_unfold reg title author w :
  search_doi reg title author w =
  (except_RequestException (try_body (reg (queries w) title) author),
   after_query w title).
Proof. reflexivity. Qed.

Lemma try_body_ok status_code data author :
  ¬ error_status status_code →
  try_body (Response status_code (Some data)) author = search_items data author.
Proof.
  intros Hok. unfold try_body, raise_for_status.
  by rewrite bool_decide_eq_false_2.
Qed.

Lemma try_body_error status_code json author :
  error_status status_code →
  try_body (Response status_code json) author
  = Raise (RequestException (HTTPError status_code)).
Proof.
  intros Herr. unfold try_body, raise_for_status.
  by rewrite bool_decide_eq_true_2.
Qed.

Lemma try_body_json_raises status_code e author :
  try_body (JsonRaises status_code e) author =
  if bool_decide (error_status status_code)
  then Raise (RequestException (HTTPError status_code))
  else Raise e.
Proof.
  unfold try_body, raise_for_status, error_status. by case_bool_decide.
Qed.

(** On a body of the expected shape only the first item is read. *)
Lemma search_items_top data item rest author :
  top_item data item rest →
  search_items data author =
  (authors ← crossref_authors (VDict item);
   match_authors (VDict item) author authors).
Proof.
  intros (d & message & -> & Hd & Hm).
  unfold search_items, has_items. simpl. rewrite Hd. simpl. by rewrite Hm.
Qed.

Lemma family_names_records authors families :
  Forall2 has_family authors families →
  family_names authors = Ret families.
Proof.
  induction 1 as [|record family authors families (r & -> & Hr) _ IH]; [done|].
  simpl. rewrite Hr. rewrite bool_decide_eq_true_2 by by eexists.
  simpl. by rewrite IH.
Qed.

Lemma match_authors_strings item author (candidates : list string) :
  match_authors (VDict item) author (VStr <$> candidates) =
  Ret (if existsb (λ candidate, bool_decide (accepts author candidate)) candidates
       then Some (default VNone (item !! "DOI"))
       else None).
Proof.
  unfold accepts. induction candidates as [|candidate candidates IH]; [done|].
  cbn [fmap list_fmap match_authors existsb py_lower mbind result_bind].
  case_bool_decide.
  - by rewrite bool_decide_eq_true_2.
  - rewrite bool_decide_eq_false_2 by done. by rewrite IH.
Qed.

Lemma existsb_accepts author (candidates : list string) :
  existsb (λ candidate, bool_decide (accepts author candidate)) candidates =
  existsb
    (λ candidate,
       bool_decide (Q2Qc 0.8 < similar (lower candidate) (lower author))%Qc)
    candidates.
Proof.
  induction candidates as [|candidate candidates IH]; [done|].
  simpl. by rewrite IH.
Qed.

(** C1.  On a successful response whose top item lists the candidate family
    names [candidates], [search_doi] returns the DOI of the item exactly when
    some candidate [c] has [similar(c.lower(), author.lower()) > 0.8], and
    [None] otherwise: the acceptance test is that comparison, with the
    threshold [0.8], candidate first. *)
Theorem search_doi_decision_rule reg w title author status_code data item rest
    authors (candidates : list string) :
  reg (queries w) title = Response status_code (Some data) →
  ¬ error_status status_code →
  top_item data item rest →
  item !! "author" = Some (VList authors) →
  Forall2 has_family authors (VStr <$> candidates) →
  (search_doi reg title author w).1 =
  Ret (if existsb
            (λ candidate,
               bool_decide (Q2Qc 0.8 < similar (lower candidate) (lower author))%Qc)
            candidates
       then default VNone (item !! "DOI")
       else VNone).
Proof.
  intros Hreply Hok Htop Hauthors Hfam.
  rewrite search_doi_unfold, Hreply. cbn [fst].
  rewrite try_body_ok by done. rewrite (search_items_top _ _ _ _ Htop).
  unfold crossref_authors. simpl. rewrite Hauthors. simpl.
  rewrite (family_names_records _ _ Hfam). simpl.
  rewrite match_authors_strings, existsb_accepts.
  by destruct (existsb _ _).
Qed.

Lemma search_doi_decision_rule_witness :
  (search_doi (mock_registry 200) (VStr "Some Title") "Smith" start).1 =
  Ret (if existsb
            (λ candidate,
               bool_decide (Q2Qc 0.8 < similar (lower candidate) (lower "Smith"))%Qc)
            ["Smith"%string]
       then default VNone (mock_item !! "DOI")
       else VNone).
Proof.
  apply (search_doi_decision_rule (mock_registry 200) start (VStr "Some Title")
           "Smith" 200 mock_data mock_item []
           [VDict {[ "family" := VStr "Smith" ]}] ["Smith"%string]).
  - reflexivity.
  - unfold error_status. lia.
  - eexists _, _. split_and!; reflexivity.
  - reflexivity.
  - repeat constructor. eexists. split; reflexivity.
Defined.

Lemma search_doi_top reg w title author status_code data item rest :
  reg (queries w) title = Response status_code (Some data) →
  ¬ error_status status_code →
  top_item data item rest →
  search_doi reg title author w =
  (except_RequestException
     (authors ← crossref_authors (VDict item);
      match_authors (VDict item) author authors),
   after_query w title).
Proof.
  intros Hreply Hok Htop. rewrite search_doi_unfold, Hreply.
  by rewrite try_body_ok, (search_items_top _ _ _ _ Htop).
Qed.

Lemma match_authors_first item author pre candidate post :
  Forall (λ c, ¬ accepts author c) pre →
  accepts author candidate →
  match_authors (VDict item) author ((VStr <$> pre) ++ VStr candidate :: post)
  = Ret (Some (default VNone (item !! "DOI"))).
Proof.
  intros Hpre Hc. induction Hpre as [|c pre Hn _ IH].
  - cbn [fmap list_fmap app match_authors py_lower mbind result_bind].
    by rewrite bool_decide_eq_true_2.
  - cbn [fmap list_fmap app match_authors py_lower mbind result_bind].
    by rewrite bool_decide_eq_false_2.
Qed.

Lemma match_authors_none item author candidates :
  Forall (λ c, ¬ accepts author c) candidates →
  match_authors (VDict item) author (VStr <$> candidates) = Ret None.
Proof.
  induction 1 as [|c candidates Hn _ IH]; [done|].
  cbn [fmap list_fmap match_authors py_lower mbind result_bind].
  by rewrite bool_decide_eq_false_2.
Qed.

Lemma family_names_skip l1 r l2 :
  r !! "family" = None →
  family_names (l1 ++ VDict r :: l2) = family_names (l1 ++ l2).
Proof.
  intros Hr. induction l1 as [|x l1 IH]; simpl.
  - rewrite Hr. by rewrite bool_decide_eq_false_2 by by intros [? ?].
  - by rewrite IH.
Qed.

Lemma family_names_raises authors e :
  family_names authors = Raise e → e = TypeError.
Proof.
  induction authors as [|x authors IH]; simpl; [done|].
  destruct x as [| | | |s|l|r]; simpl; try by intros [= <-].
  - destruct (str_contains _ _); simpl; [by intros [= <-]|done].
  - destruct (existsb _ _); simpl; [by intros [= <-]|done].
  - destruct (r !! "family") as [family|]; simpl; [|done].
    destruct (family_names authors); simpl; [done|]. intros [= <-]. by apply IH.
Qed.

Lemma crossref_authors_raises item e :
  crossref_authors item = Raise e → e = TypeError ∨ e = AttributeError.
Proof.
  unfold crossref_authors.
  destruct item as [| | | | | |it]; simpl; try (intros [= <-]; by right).
  destruct (default (VList []) (it !! "author")) as [| | | |s|l|d]; simpl;
    try (intros [= <-]; by left);
    intros ?%family_names_raises; by left.
Qed.

Lemma match_authors_not_string item author pre x post :
  Forall (λ c, ¬ accepts author c) pre →
  (∀ s, x ≠ VStr s) →
  match_authors (VDict item) author ((VStr <$> pre) ++ x :: post)
  = Raise AttributeError.
Proof.
  intros Hpre Hx. induction Hpre as [|c pre Hn _ IH].
  - cbn [fmap list_fmap app match_authors]. destruct x as [| | | |s| |];
      try done. by destruct (Hx s).
  - cbn [fmap list_fmap app match_authors py_lower mbind result_bind].
    by rewrite bool_decide_eq_false_2.
Qed.

(** C2, as the specification states it, fails for a status that is not 2xx
    and not an error for [raise_for_status]: on a 300 response with a JSON
    body the DOI is returned. *)
Lemma search_doi_status_300 :
  ¬ (200 ≤ 300 < 300)%Z ∧
  (search_doi (mock_registry 300) (VStr "Some Title") "Smith" start).1
  = Ret (VStr "10.1/X").
Proof. split; [lia|]. by vm_compute. Qed.

(** C2, amended.  When [requests.get] raises a [RequestException]
    (connection error, timeout) or the response has a status from 400 to 599,
    [search_doi] returns [None], raises nothing, and has sent that one query
    only. *)
Theorem search_doi_fails_softly reg w title author :
  match reg (queries w) title with
  | GetRaises (RequestException _) => True
  | GetRaises _ => False
  | Response status_code _ | JsonRaises status_code _ =>
      error_status status_code
  end →
  search_doi reg title author w = (Ret VNone, after_query w title).
Proof.
  intros Hfail. rewrite search_doi_unfold.
  destruct (reg (queries w) title) as [e|status_code json|status_code e].
  - by destruct e.
  - by rewrite try_body_error.
  - by rewrite try_body_json_raises, bool_decide_eq_true_2.
Qed.

Lemma search_doi_fails_softly_witness :
  search_doi unreachable_registry (VStr "Some Title") "Smith" start
  = (Ret VNone, after_query start (VStr "Some Title")).
Proof. apply search_doi_fails_softly. simpl. exact I. Defined.

(** C3, as the specification states it, fails when an author record of the
    top item that comes after the first match cannot be read.  Line 27 builds
    the list of the family names of all the records of the top item before
    line 30 compares the first candidate: with the records
    [[{"family": "Smith"}, 7]] the first candidate satisfies the match rule,
    yet ["family" in 7] raises [TypeError] and no DOI is returned. *)
Lemma search_doi_checks_all_records :
  accepts "Smith" "Smith" ∧
  search_doi number_author_registry (VStr "Some Title") "Smith" start
  = (Raise TypeError, after_query start (VStr "Some Title")).
Proof. split; by vm_compute. Qed.

(** C3, amended.  On a successful response of the expected shape, the
    result of [search_doi] is a function of the top item alone, whatever the
    other items are.  Line 27 reads every author record of the top item
    first: when one of them cannot be read, [search_doi] raises that
    exception and compares no candidate.  When all can be read, the
    candidates are compared in order: the first one that satisfies the match
    rule ends the search with the DOI of the top item, whatever follows it in
    the list of candidates; a candidate that is not a string and comes before
    any match raises [AttributeError]; and when no candidate satisfies the
    rule the result is [None]. *)
Theorem search_doi_top_item_first_match reg w title author status_code data
    item rest :
  reg (queries w) title = Response status_code (Some data) →
  ¬ error_status status_code →
  top_item data item rest →
  search_doi reg title author w =
    (except_RequestException
       (authors ← crossref_authors (VDict item);
        match_authors (VDict item) author authors),
     after_query w title) ∧
  (∀ pre candidate post,
     crossref_authors (VDict item)
       = Ret ((VStr <$> pre) ++ VStr candidate :: post) →
     Forall (λ c, ¬ accepts author c) pre →
     accepts author candidate →
     search_doi reg title author w
     = (Ret (default VNone (item !! "DOI")), after_query w title)) ∧
  (∀ candidates,
     crossref_authors (VDict item) = Ret (VStr <$> candidates) →
     Forall (λ c, ¬ accepts author c) candidates →
     search_doi reg title author w = (Ret VNone, after_query w title)) ∧
  (∀ e,
     crossref_authors (VDict item) = Raise e →
     (e = TypeError ∨ e = AttributeError) ∧
     search_doi reg title author w = (Raise e, after_query w title)) ∧
  (∀ pre x post,
     crossref_authors (VDict item) = Ret ((VStr <$> pre) ++ x :: post) →
     Forall (λ c, ¬ accepts author c) pre →
     (∀ s, x ≠ VStr s) →
     search_doi reg title author w
     = (Raise AttributeError, after_query w title)).
Proof.
  intros Hreply Hok Htop.
  rewrite (search_doi_top _ _ _ _ _ _ _ _ Hreply Hok Htop). split_and!.
  - done.
  - intros pre candidate post -> Hpre Hc. simpl.
    by rewrite match_authors_first.
  - intros candidates -> Hnone. simpl. by rewrite match_authors_none.
  - intros e He. rewrite He.
    apply crossref_authors_raises in He as [->| ->]; split; auto.
  - intros pre x post -> Hpre Hx. simpl.
    by rewrite match_authors_not_string.
Qed.

Lemma search_doi_top_item_first_match_witness :
  search_doi two_item_registry (VStr "Some Title") "Smith" start
  = (Ret (default VNone (top_item_of_two !! "DOI")),
     after_query start (VStr "Some Title")).
Proof.
  refine (proj1 (proj2 (search_doi_top_item_first_match two_item_registry start
           (VStr "Some Title") "Smith" 200 two_item_data top_item_of_two
           [second_item_of_two] _ _ _))
           ["Jones"%string] "Smith"%string [VInt 5] _ _ _).
  - reflexivity.
  - unfold error_status. lia.
  - eexists _, _. split_and!; reflexivity.
  - by vm_compute.
  - constructor; [|constructor]. by vm_compute.
  - by vm_compute.
Defined.

(** C4.  When the body of a successful response is an object without the key
    ["message"], or its ["items"] list is empty, [search_doi] returns [None]
    and raises nothing. *)
Theorem search_doi_no_items reg w title author status_code d :
  reg (queries w) title = Response status_code (Some (VDict d)) →
  ¬ error_status status_code →
  d !! "message" = None ∨
  (∃ message, d !! "message" = Some (VDict message) ∧
              message !! "items" = Some (VList [])) →
  search_doi reg title author w = (Ret VNone, after_query w title).
Proof.
  intros Hreply Hok Hcase. rewrite search_doi_unfold, Hreply.
  rewrite try_body_ok by done. unfold search_items, has_items.
  destruct Hcase as [Hd|(message & Hd & Hm)]; simpl; rewrite Hd; simpl.
  - done.
  - by rewrite Hm.
Qed.

Lemma search_doi_no_items_witness :
  search_doi empty_registry (VStr "Some Title") "Smith" start
  = (Ret VNone, after_query start (VStr "Some Title")).
Proof.
  apply (search_doi_no_items empty_registry start (VStr "Some Title") "Smith"
           200 ∅).
  - reflexivity.
  - unfold error_status. lia.
  - left. reflexivity.
Defined.

(** C10.  On a successful response of the expected shape: a top item without
    the key ["author"] gives [None]; a top item without the key ["DOI"]
    gives [None] even when a candidate matches; and an author record
    without the key ["family"] contributes no candidate and no error. *)
Theorem search_doi_missing_keys reg w title author status_code data item rest :
  reg (queries w) title = Response status_code (Some data) →
  ¬ error_status status_code →
  top_item data item rest →
  (item !! "author" = None →
   search_doi reg title author w = (Ret VNone, after_query w title)) ∧
  (∀ pre candidate post,
     crossref_authors (VDict item)
       = Ret ((VStr <$> pre) ++ VStr candidate :: post) →
     Forall (λ c, ¬ accepts author c) pre →
     accepts author candidate →
     item !! "DOI" = None →
     search_doi reg title author w = (Ret VNone, after_query w title)) ∧
  (∀ l1 r l2,
     item !! "author" = Some (VList (l1 ++ VDict r :: l2)) →
     r !! "family" = None →
     crossref_authors (VDict item) = family_names (l1 ++ l2)).
Proof.
  intros Hreply Hok Htop.
  rewrite (search_doi_top _ _ _ _ _ _ _ _ Hreply Hok Htop). split_and!.
  - intros Ha. unfold crossref_authors. simpl. by rewrite Ha.
  - intros pre candidate post -> Hpre Hc Hdoi. simpl.
    rewrite match_authors_first by done. by rewrite Hdoi.
  - intros l1 r l2 Ha Hr. unfold crossref_authors. simpl. rewrite Ha. simpl.
    by apply family_names_skip.
Qed.

Lemma search_doi_missing_keys_witness :
  search_doi anonymous_registry (VStr "Some Title") "Smith" start
  = (Ret VNone, after_query start (VStr "Some Title")).
Proof.
  refine (proj1 (search_doi_missing_keys anonymous_registry start
           (VStr "Some Title") "Smith" 200 _ {[ "DOI" := VStr "10.1/X" ]} []
           _ _ _) _).
  - reflexivity.
  - unfold error_status. lia.
  - eexists _, _. split_and!; reflexivity.
  - reflexivity.
Defined.

(** ** Properties of [process_bib_file] *)

Lemma match_authors_Some item author authors doi :
  match_authors (VDict item) author authors = Ret (Some doi) →
  ∃ candidate, VStr candidate ∈ authors ∧ accepts author candidate ∧
               doi = default VNone (item !! "DOI").
Proof.
  induction authors as [|x authors IH]; simpl; [done|].
  destruct x as [| | | |candidate| |]; simpl; try done.
  case_bool_decide as Hc.
  - intros [= <-]. exists candidate. split_and!; [left|done|done].
  - intros (c & Hin & Hacc & Hdoi)%IH. exists c. split_and!; [by right|done|done].
Qed.

(** [search_doi] returns a DOI only from the top item of a successful
    response, and only after a candidate was accepted. *)
Lemma search_items_Some data author doi :
  search_items data author = Ret (Some doi) →
  ∃ item rest authors candidate,
    top_item data item rest ∧
    crossref_authors (VDict item) = Ret authors ∧
    VStr candidate ∈ authors ∧ accepts author candidate ∧
    doi = default VNone (item !! "DOI").
Proof.
  unfold search_items, has_items.
  destruct data as [| | | |s|l|d]; simpl; try done.
  { destruct (str_contains _ _); simpl; done. }
  { destruct (existsb _ _); simpl; done. }
  destruct (d !! "message") as [message|] eqn:Hd; simpl; [|done].
  destruct message as [| | | |s|l|message]; simpl; try done.
  { destruct (str_contains _ _); simpl; done. }
  { destruct (existsb _ _); simpl; done. }
  destruct (message !! "items") as [items|] eqn:Hm; simpl; [|done].
  destruct items as [| | | |s|l|items]; simpl; try done.
  { destruct s; simpl; done. }
  { destruct l as [|item rest]; simpl; [done|].
    destruct (crossref_authors item) as [authors|e] eqn:Ha; simpl; [|done].
    destruct item as [| | | | | |item]; try done.
    intros (candidate & Hin & Hacc & Hdoi)%match_authors_Some.
    exists item, rest, authors, candidate. split_and!; try done.
    by exists d, message. }
  { case_bool_decide; simpl; done. }
Qed.

Lemma search_doi_truthy reg title author w doi :
  (search_doi reg title author w).1 = Ret doi →
  truthy doi = true →
  ∃ status_code data item rest authors candidate,
    reg (queries w) title = Response status_code (Some data) ∧
    ¬ error_status status_code ∧
    top_item data item rest ∧
    crossref_authors (VDict item) = Ret authors ∧
    VStr candidate ∈ authors ∧ accepts author candidate ∧
    item !! "DOI" = Some doi.
Proof.
  rewrite search_doi_unfold. cbn [fst]. intros Hret Htrue.
  destruct (reg (queries w) title) as [e|status_code json|status_code e]
    eqn:Hreply.
  { simpl in Hret. destruct e; by simplify_eq. }
  2:{ rewrite try_body_json_raises in Hret.
      case_bool_decide; simpl in Hret; [by simplify_eq|].
      destruct e; by simplify_eq. }
  destruct (decide (error_status status_code)) as [Herr|Hok].
  { rewrite try_body_error in Hret by done. simpl in Hret. by simplify_eq. }
  destruct json as [data|]; [|simpl in Hret].
  2:{ unfold raise_for_status in Hret.
      rewrite bool_decide_eq_false_2 in Hret by done. simpl in Hret.
      by simplify_eq. }
  rewrite try_body_ok in Hret by done.
  destruct (search_items data author) as [[v|]|e] eqn:Hs; simpl in Hret.
  - simplify_eq.
    apply search_items_Some in Hs
      as (item & rest & authors & candidate & Htop & Ha & Hin & Hacc & Hdoi).
    exists status_code, data, item, rest, authors, candidate.
    split_and!; try done.
    destruct (item !! "DOI") as [v|]; simpl in Hdoi; by subst.
  - by simplify_eq.
  - destruct e; by simplify_eq.
Qed.

Lemma M_bind_unfold {A B : Type} (m : M A) (f : A → M B) (w : World) :
  (m ≫= f) w =
  match m w with
  | (Ret a, w') => f a w'
  | (Raise e, w') => (Raise e, w')
  end.
Proof. reflexivity. Qed.

(** An entry that has a DOI goes through the loop body untouched, and the
    world with it. *)
Lemma loop_body_has_doi reg entry_key entry updated_count w :
  has_doi entry = true →
  loop_body reg entry_key entry updated_count w = (Ret (entry, updated_count), w).
Proof.
  unfold has_doi, loop_body. by destruct (fields entry !! "doi").
Qed.

(** What one pass of the loop can do to the world: nothing, one query, or
    one query followed by one assignment of a DOI backed by a positive
    match. *)
Lemma loop_body_world reg entry_key entry updated_count w r w' :
  loop_body reg entry_key entry updated_count w = (r, w') →
  w' = w ∨
  w' = after_query w (default (VStr "") (fields entry !! "title")) ∨
  ∃ doi,
    w' = {| queries := queries w ++ [default (VStr "") (fields entry !! "title")];
            doi_writes := doi_writes w ++ [(entry_key, doi)] |} ∧
    has_doi entry = false ∧
    positive_match reg (queries w) entry doi.
Proof.
  unfold loop_body, has_doi.
  destruct (fields entry !! "doi") as [v|] eqn:Hdoi.
  { intros [= <- <-]. by left. }
  destruct (title_and_authors _ _); [|intros [= <- <-]; by left].
  rewrite M_bind_unfold. unfold lift at 1.
  destruct (first_last_name _) as [first_author|e] eqn:Hfirst;
    [|intros [= <- <-]; by left].
  rewrite M_bind_unfold.
  destruct (search_doi reg _ first_author w) as [[doi|e] w1] eqn:Hsearch.
  2:{ intros [= <- <-]. right. left.
      by rewrite search_doi_unfold in Hsearch; simplify_eq. }
  assert (w1 = after_query w (default (VStr "") (fields entry !! "title")))
    as -> by (by rewrite search_doi_unfold in Hsearch; simplify_eq).
  destruct (truthy doi) eqn:Htrue; [|intros [= <- <-]; right; by left].
  rewrite M_bind_unfold. unfold set_doi at 1. simpl. intros [= <- <-].
  right. right. exists doi. split_and!; [done|done|].
  destruct (search_doi_truthy reg (default (VStr "") (fields entry !! "title"))
              first_author w doi)
    as (status_code & data & item & rest & authors & candidate & H1 & H2 & H3
        & H4 & H5 & H6 & H7); [by rewrite Hsearch|done|].
  by exists first_author, status_code, data, item, rest, authors, candidate.
Qed.

Lemma for_entries_cons reg entry_key entry rest updated_count w :
  for_entries reg ((entry_key, entry) :: rest) updated_count w =
  match loop_body reg entry_key entry updated_count w with
  | (Ret r, w1) =>
      match for_entries reg rest r.2 w1 with
      | (Ret r', w2) => (Ret ((entry_key, r.1) :: r'.1, r'.2), w2)
      | (Raise e, w2) => (Raise e, w2)
      end
  | (Raise e, w1) => (Raise e, w1)
  end.
Proof. reflexivity. Qed.

(** The assignments of a run of the loop: at most one per entry, in the
    order of the entries, each backed by a positive match of the reply to
    the query for its entry. *)
Lemma for_entries_writes reg : ∀ entries updated_count w r w',
  for_entries reg entries updated_count w = (r, w') →
  queries w `prefix_of` queries w' ∧
  ∃ new,
    doi_writes w' = doi_writes w ++ new ∧
    new.*1 `sublist_of` entries.*1 ∧
    ∀ entry_key doi, (entry_key, doi) ∈ new →
      ∃ entry hist,
        (entry_key, entry) ∈ entries ∧ has_doi entry = false ∧
        hist `prefix_of` queries w' ∧ positive_match reg hist entry doi.
Proof.
  induction entries as [|[entry_key entry] rest IH]; intros n w r w'.
  { intros [= <- <-]. split; [done|]. exists []. rewrite app_nil_r.
    split_and!; [done|done|]. by intros ?? ?%elem_of_nil. }
  rewrite for_entries_cons.
  destruct (loop_body reg entry_key entry n w) as [r1 w1] eqn:Hbody.
  pose proof (loop_body_world _ _ _ _ _ _ _ Hbody) as Hw1.
  assert (Hfail : w' = w1 →
    queries w `prefix_of` queries w' ∧
    ∃ new,
      doi_writes w' = doi_writes w ++ new ∧
      new.*1 `sublist_of` ((entry_key, entry) :: rest).*1 ∧
      ∀ key doi, (key, doi) ∈ new →
        ∃ e hist,
          (key, e) ∈ (entry_key, entry) :: rest ∧ has_doi e = false ∧
          hist `prefix_of` queries w' ∧ positive_match reg hist e doi).
  { intros ->. destruct Hw1 as [->|[->|(doi & -> & Hno & Hpos)]].
    - split; [done|]. exists []. rewrite app_nil_r.
      split_and!; [done|apply sublist_nil_l|]. by intros ?? ?%elem_of_nil.
    - split; [by apply prefix_app_r|]. exists []. rewrite app_nil_r.
      split_and!; [done|apply sublist_nil_l|]. by intros ?? ?%elem_of_nil.
    - split; [by apply prefix_app_r|]. exists [(entry_key, doi)].
      split_and!; [done|by apply sublist_skip, sublist_nil_l|].
      intros key d Hin. apply list_elem_of_singleton in Hin as [= -> ->].
      exists entry, (queries w). split_and!; [left|done| |done].
      by apply prefix_app_r. }
  destruct r1 as [r1|e]; [|intros [= <- <-]; by apply Hfail].
  destruct (for_entries reg rest r1.2 w1) as [r2 w2] eqn:Hrest.
  destruct (IH _ _ _ _ Hrest) as (Hq & new & Hnew & Hsub & Hall).
  intros Hr.
  assert (w' = w2) as -> by (destruct r2; by simplify_eq).
  clear Hr Hfail.
  assert (Hlift : ∀ key doi, (key, doi) ∈ new →
    ∃ e hist, (key, e) ∈ (entry_key, entry) :: rest ∧ has_doi e = false ∧
              hist `prefix_of` queries w2 ∧ positive_match reg hist e doi).
  { intros key doi Hin. destruct (Hall key doi Hin) as (e & hist & H1 & H2 & H3 & H4).
    exists e, hist. split_and!; [by right|done|done|done]. }
  destruct Hw1 as [->|[->|(doi & -> & Hno & Hpos)]].
  - split; [done|]. exists new. split_and!; [done|by apply sublist_cons|done].
  - simpl in *. split; [by etrans; [apply prefix_app_r|]|].
    exists new. split_and!; [done|by apply sublist_cons|done].
  - simpl in *. split; [by etrans; [apply prefix_app_r|]|].
    exists ((entry_key, doi) :: new).
    split_and!; [by rewrite Hnew, <- app_assoc|by apply sublist_skip|].
    intros key d Hin. apply elem_of_cons in Hin as [[= -> ->]|Hin]; [|by apply Hlift].
    exists entry, (queries w). split_and!; [left|done| |done].
    by etrans; [apply prefix_app_r|].
Qed.

(** The queries and assignments of a run are those of its loop. *)
Lemma process_bib_file_world fs reg bib_data :
  parse_file fs = Ret bib_data →
  world (process_bib_file fs reg) = (for_entries reg bib_data 0 start).2.
Proof.
  intros Hparse. unfold process_bib_file. rewrite Hparse.
  destruct (for_entries reg bib_data 0 start) as [[[out n]|e] w]; [|done].
  destruct (open_output fs); [|done]. by destruct (to_file fs out).
Qed.

(** C5.  Over a whole run, the assignment [entry.fields["doi"] = doi] is
    executed at most once for each citation key, and each execution follows
    a reply to the query for that entry whose top item has a candidate
    author accepted by the match rule and carries the DOI assigned. *)
Theorem doi_written_once_on_match fs reg bib_data :
  parse_file fs = Ret bib_data →
  NoDup bib_data.*1 →
  NoDup (doi_writes (world (process_bib_file fs reg))).*1 ∧
  ∀ entry_key doi,
    (entry_key, doi) ∈ doi_writes (world (process_bib_file fs reg)) →
    ∃ entry hist,
      (entry_key, entry) ∈ bib_data ∧ has_doi entry = false ∧
      hist `prefix_of` queries (world (process_bib_file fs reg)) ∧
      positive_match reg hist entry doi.
Proof.
  intros Hparse Hkeys. rewrite (process_bib_file_world _ _ _ Hparse).
  destruct (for_entries reg bib_data 0 start) as [r w] eqn:Hloop.
  destruct (for_entries_writes _ _ _ _ _ _ Hloop) as (_ & new & Hnew & Hsub & Hall).
  simpl in Hnew. subst new. simpl.
  split; [by eapply sublist_NoDup|done].
Qed.

Lemma doi_written_once_on_match_witness :
  NoDup (doi_writes (world (process_bib_file (readable_writable two_entries)
                              (mock_registry 200)))).*1 ∧
  ∀ entry_key doi,
    (entry_key, doi) ∈ doi_writes (world (process_bib_file
                          (readable_writable two_entries) (mock_registry 200))) →
    ∃ entry hist,
      (entry_key, entry) ∈ two_entries ∧ has_doi entry = false ∧
      hist `prefix_of` queries (world (process_bib_file
                          (readable_writable two_entries) (mock_registry 200))) ∧
      positive_match (mock_registry 200) hist entry doi.
Proof.
  apply doi_written_once_on_match.
  - reflexivity.
  - apply (bool_decide_unpack _). by vm_compute.
Defined.

(** The entries that have a DOI keep their place and their content. *)
Lemma for_entries_keep reg : ∀ entries updated_count w r w',
  for_entries reg entries updated_count w = (Ret r, w') →
  ∀ i entry_key entry,
    entries !! i = Some (entry_key, entry) → has_doi entry = true →
    r.1 !! i = Some (entry_key, entry).
Proof.
  induction entries as [|[key0 entry0] rest IH]; intros n w r w' Hrun i key entry.
  { by destruct i. }
  rewrite for_entries_cons in Hrun.
  destruct (loop_body reg key0 entry0 n w) as [[r1|e] w1] eqn:Hbody; [|done].
  destruct (for_entries reg rest r1.2 w1) as [[r2|e] w2] eqn:Hrest; [|done].
  simplify_eq. destruct i as [|i]; simpl.
  - intros [= -> ->] Hdoi.
    rewrite loop_body_has_doi in Hbody by done. by simplify_eq.
  - by eapply IH.
Qed.

(** Dropping the entries that have a DOI changes neither the queries and
    assignments of the loop nor how it ends. *)
Lemma for_entries_filter reg : ∀ entries updated_count w,
  (for_entries reg entries updated_count w).2
  = (for_entries reg (filter (λ ke, has_doi ke.2 = false) entries)
       updated_count w).2 ∧
  match (for_entries reg entries updated_count w).1,
        (for_entries reg (filter (λ ke, has_doi ke.2 = false) entries)
           updated_count w).1 with
  | Ret r1, Ret r2 => r1.2 = r2.2
  | Raise e1, Raise e2 => e1 = e2
  | _, _ => False
  end.
Proof.
  induction entries as [|[key0 entry0] rest IH]; intros n w; [done|].
  destruct (has_doi entry0) eqn:Hdoi.
  - rewrite filter_cons_False by (simpl; congruence).
    rewrite for_entries_cons, loop_body_has_doi by done. simpl.
    destruct (IH n w) as [Hw Hr]. revert Hw Hr.
    destruct (for_entries reg rest n w) as [[r1|e1] w1];
      destruct (for_entries reg (filter _ rest) n w) as [[r2|e2] w2]; done.
  - rewrite filter_cons_True by done. rewrite !for_entries_cons.
    destruct (loop_body reg key0 entry0 n w) as [[r0|e0] w0]; [|done].
    destruct (IH r0.2 w0) as [Hw Hr]. revert Hw Hr.
    destruct (for_entries reg rest r0.2 w0) as [[r1|e1] w1];
      destruct (for_entries reg (filter _ rest) r0.2 w0) as [[r2|e2] w2]; done.
Qed.

(** What a run that reaches the writer has done: its loop ended without
    exception, the output opened, and the writer decides the rest. *)
Lemma process_bib_file_handed fs reg bib_data out :
  parse_file fs = Ret bib_data →
  handed_to_writer (process_bib_file fs reg) = Some out →
  ∃ updated_count w,
    for_entries reg bib_data 0 start = (Ret (out, updated_count), w) ∧
    open_output fs = Ret () ∧
    outcome (process_bib_file fs reg)
    = match to_file fs out with
      | Ret _ => Ret updated_count
      | Raise e => Raise e
      end ∧
    output_file (process_bib_file fs reg)
    = match to_file fs out with
      | Ret stored => Written stored
      | Raise _ => Truncated
      end.
Proof.
  intros Hparse. unfold process_bib_file. rewrite Hparse.
  destruct (for_entries reg bib_data 0 start) as [[[out1 n]|e] w]; [|done].
  destruct (open_output fs) as [[]|e]; [|done].
  destruct (to_file fs out1) as [stored|e] eqn:Hwrite; simpl;
    intros [= <-]; exists n, w; by rewrite Hwrite.
Qed.

Lemma process_bib_file_reaches_writer fs reg bib_data :
  parse_file fs = Ret bib_data →
  is_Some (handed_to_writer (process_bib_file fs reg)) ↔
  (∃ r, (for_entries reg bib_data 0 start).1 = Ret r) ∧
  (∃ u, open_output fs = Ret u).
Proof.
  intros Hparse. unfold process_bib_file. rewrite Hparse.
  destruct (for_entries reg bib_data 0 start) as [[[out1 n]|e] w]; simpl.
  - destruct (open_output fs) as [u|e].
    + destruct (to_file fs out1); simpl; split; eauto.
    + simpl. split; [by intros [? ?]|]. by intros [_ [? ?]].
  - split; [by intros [? ?]|]. by intros [[? ?] _].
Qed.

(** C6, as the specification states it, fails in its second half.  The
    entry [k2] has the DOI [10.2/x_y]; the run sends no query, and hands the
    entry to the writer as it is; but a writer that encodes underscores, as
    the BibTeX writer of [pybtex] does, leaves a file in which the DOI of [k2]
    reads with a backslash before the underscore. *)
Lemma doi_entry_changed_by_writer :
  has_doi entry_underscore_doi = true ∧
  queries (world (process_bib_file
                    (readable_encoded [("k2"%string, entry_underscore_doi)])
                    (mock_registry 200))) = [] ∧
  handed_to_writer (process_bib_file
                      (readable_encoded [("k2"%string, entry_underscore_doi)])
                      (mock_registry 200))
  = Some [("k2"%string, entry_underscore_doi)] ∧
  ∃ stored entry',
    output_file (process_bib_file
                   (readable_encoded [("k2"%string, entry_underscore_doi)])
                   (mock_registry 200)) = Written stored ∧
    stored !! 0 = Some ("k2"%string, entry') ∧
    fields entry' !! "doi" = Some (VStr (escape_underscores "10.2/x_y")) ∧
    fields entry_underscore_doi !! "doi" = Some (VStr "10.2/x_y") ∧
    escape_underscores "10.2/x_y" ≠ "10.2/x_y"%string.
Proof.
  split_and!; [done|done|done|].
  eexists _, _. split_and!; [reflexivity|reflexivity|by vm_compute|done|].
  by vm_compute.
Qed.

(** C6, amended.  An entry that has a DOI field causes no query and no
    assignment and reaches the writer as it is: the loop body returns it
    unchanged in an unchanged world; a run sends the queries, makes the
    assignments and reaches the writer like the run on the bibliography
    without the entries that have a DOI; in the bibliography handed to the
    writer each such entry is at its place, unchanged; and the output file
    is what the writer makes of that bibliography. *)
Theorem doi_entries_pass_through fs reg bib_data :
  parse_file fs = Ret bib_data →
  (∀ entry_key entry updated_count w,
     has_doi entry = true →
     loop_body reg entry_key entry updated_count w
     = (Ret (entry, updated_count), w)) ∧
  world (process_bib_file fs reg)
  = world (process_bib_file
             {| parse_file := Ret (filter (λ ke, has_doi ke.2 = false) bib_data);
                open_output := open_output fs; to_file := to_file fs |} reg) ∧
  (is_Some (handed_to_writer (process_bib_file fs reg)) ↔
   is_Some (handed_to_writer (process_bib_file
             {| parse_file := Ret (filter (λ ke, has_doi ke.2 = false) bib_data);
                open_output := open_output fs; to_file := to_file fs |} reg))) ∧
  ∀ out, handed_to_writer (process_bib_file fs reg) = Some out →
    (∀ i entry_key entry,
       bib_data !! i = Some (entry_key, entry) → has_doi entry = true →
       out !! i = Some (entry_key, entry)) ∧
    output_file (process_bib_file fs reg)
    = match to_file fs out with
      | Ret stored => Written stored
      | Raise _ => Truncated
      end.
Proof.
  intros Hparse. split; [intros; by apply loop_body_has_doi|].
  destruct (for_entries_filter reg bib_data 0 start) as [Hw Hr].
  set (fs' := {| parse_file := Ret (filter (λ ke, has_doi ke.2 = false) bib_data);
                 open_output := open_output fs; to_file := to_file fs |}).
  split_and!.
  - rewrite (process_bib_file_world _ _ _ Hparse).
    by rewrite (process_bib_file_world fs' reg _ eq_refl).
  - rewrite (process_bib_file_reaches_writer _ _ _ Hparse).
    rewrite (process_bib_file_reaches_writer fs' reg _ eq_refl).
    simpl.
    destruct ((for_entries reg bib_data 0 start).1) as [r1|e1],
             ((for_entries reg (filter _ bib_data) 0 start).1) as [r2|e2];
      try done; split; intros [[r Hret] Hopen]; split; eauto; done.
  - intros out Hout.
    destruct (process_bib_file_handed _ _ _ _ Hparse Hout)
      as (n & w & Hrun & _ & _ & Hfile).
    split; [|done]. intros i key entry Hi Hdoi.
    by apply (for_entries_keep reg bib_data 0 start (out, n) w Hrun i key entry).
Qed.

Lemma doi_entries_pass_through_witness :
  world (process_bib_file (readable_writable two_entries) (mock_registry 200))
  = world (process_bib_file
             {| parse_file :=
                  Ret (filter (λ ke, has_doi ke.2 = false) two_entries);
                open_output := open_output (readable_writable two_entries);
                to_file := to_file (readable_writable two_entries) |}
             (mock_registry 200)) ∧
  (is_Some (handed_to_writer (process_bib_file (readable_writable two_entries)
                                (mock_registry 200))) ↔
   is_Some (handed_to_writer (process_bib_file
             {| parse_file :=
                  Ret (filter (λ ke, has_doi ke.2 = false) two_entries);
                open_output := open_output (readable_writable two_entries);
                to_file := to_file (readable_writable two_entries) |}
             (mock_registry 200)))) ∧
  ∀ out, handed_to_writer (process_bib_file (readable_writable two_entries)
                             (mock_registry 200)) = Some out →
    (∀ i entry_key entry,
       two_entries !! i = Some (entry_key, entry) → has_doi entry = true →
       out !! i = Some (entry_key, entry)) ∧
    output_file (process_bib_file (readable_writable two_entries)
                   (mock_registry 200))
    = match to_file (readable_writable two_entries) out with
      | Ret stored => Written stored
      | Raise _ => Truncated
      end.
Proof.
  exact (proj2 (doi_entries_pass_through
           (readable_writable two_entries) (mock_registry 200) two_entries
           eq_refl)).
Defined.

(** *** Recovery from the failures of one entry *)









(** ** Further properties of [search_doi] *)

Lemma match_authors_raises item author authors e :
  match_authors item author authors = Raise e → e = AttributeError.
Proof.
  induction authors as [|x authors IH]; simpl; [done|].
  destruct x as [| | | |s| |]; simpl; try by intros [= <-].
  case_bool_decide; [|done].
  destruct item; simpl; by intros [= <-].
Qed.

Lemma search_items_raises data author e :
  search_items data author = Raise e →
  e = TypeError ∨ e = AttributeError ∨ e = KeyError.
Proof.
  unfold search_items, has_items.
  destruct data as [| | | |s|l|d]; simpl; try (intros [= <-]; by left).
  { destruct (str_contains _ _); simpl; [intros [= <-]; by left|done]. }
  { destruct (existsb _ _); simpl; [intros [= <-]; by left|done]. }
  destruct (d !! "message") as [message|]; simpl; [|done].
  destruct message as [| | | |s|l|message]; simpl; try (intros [= <-]; by left).
  { destruct (str_contains _ _); simpl; [intros [= <-]; by left|done]. }
  { destruct (existsb _ _); simpl; [intros [= <-]; by left|done]. }
  destruct (message !! "items") as [items|]; simpl; [|done].
  destruct items as [| | | |s|l|items]; simpl; try (intros [= <-]; by left).
  - destruct s as [|c s]; simpl; [done|]. intros [= <-]. right. by left.
  - destruct l as [|item rest]; simpl; [done|].
    destruct (crossref_authors item) as [authors|e1] eqn:Ha; simpl.
    + intros ->%match_authors_raises. right. by left.
    + intros [= <-]. apply crossref_authors_raises in Ha as [->| ->];
        [by left|right; by left].
  - case_bool_decide; simpl; [|done]. intros [= <-]. right. by right.
Qed.

(** Exceptions that leave [search_doi]: never a [RequestException], which
    the [except] clause catches, whatever raised it; and once the body of the
    response is decoded, only [TypeError], [AttributeError] or [KeyError],
    never an [IndexError], since [items[0]] is read only when
    [len(items) > 0].  (An exception of another class raised by
    [requests.get] or by [json()] leaves [search_doi] as it is.) *)
Theorem search_doi_raises_only reg title author w e :
  (search_doi reg title author w).1 = Raise e →
  is_RequestException e = false ∧
  ∀ status_code data,
    reg (queries w) title = Response status_code (Some data) →
    e = TypeError ∨ e = AttributeError ∨ e = KeyError.
Proof.
  rewrite search_doi_unfold. cbn [fst].
  destruct (reg (queries w) title) as [e0|status_code json|status_code e0].
  - simpl. intros He. split; [|done].
    destruct e0; simplify_eq; done.
  - unfold try_body, raise_for_status. case_bool_decide; [done|]. simpl.
    destruct json as [data|]; simpl; [|done].
    destruct (search_items data author) as [[v|]|e1] eqn:Hs; simpl; [done|done|].
    intros He. assert (e1 = e) as -> by (destruct e1; by simplify_eq).
    apply search_items_raises in Hs.
    split; [by destruct Hs as [->|[->| ->]]|]. by intros ? ? _.
  - rewrite try_body_json_raises. case_bool_decide; [done|]. simpl.
    intros He. split; [|done]. destruct e0; simplify_eq; done.
Qed.

Lemma search_doi_raises_only_witness :
  is_RequestException TypeError = false ∧
  ∀ status_code data,
    null_registry (queries start) (VStr "Some Title")
      = Response status_code (Some data) →
    TypeError = TypeError ∨ TypeError = AttributeError ∨ TypeError = KeyError.
Proof.
  apply (search_doi_raises_only null_registry (VStr "Some Title") "Smith" start).
  reflexivity.
Defined.

(** A value other than [None] is returned only as the ["DOI"] of the top
    item of a successful response, after one of its candidates was accepted
    by the match rule. *)
Theorem search_doi_returns_top_doi reg title author w doi :
  (search_doi reg title author w).1 = Ret doi →
  doi ≠ VNone →
  ∃ status_code data item rest authors candidate,
    reg (queries w) title = Response status_code (Some data) ∧
    ¬ error_status status_code ∧
    top_item data item rest ∧
    crossref_authors (VDict item) = Ret authors ∧
    VStr candidate ∈ authors ∧
    (Q2Qc 0.8 < similar (lower candidate) (lower author))%Qc ∧
    item !! "DOI" = Some doi.
Proof.
  rewrite search_doi_unfold. cbn [fst]. intros Hret Hdoi.
  destruct (reg (queries w) title) as [e|status_code json|status_code e]
    eqn:Hreply.
  { simpl in Hret. destruct e; by simplify_eq. }
  2:{ rewrite try_body_json_raises in Hret.
      case_bool_decide; simpl in Hret; [by simplify_eq|].
      destruct e; by simplify_eq. }
  destruct (decide (error_status status_code)) as [Herr|Hok].
  { rewrite try_body_error in Hret by done. simpl in Hret. by simplify_eq. }
  destruct json as [data|].
  2:{ unfold try_body, raise_for_status in Hret.
      rewrite bool_decide_eq_false_2 in Hret by done. simpl in Hret.
      by simplify_eq. }
  rewrite try_body_ok in Hret by done.
  destruct (search_items data author) as [[v|]|e] eqn:Hs; simpl in Hret.
  - simplify_eq.
    apply search_items_Some in Hs
      as (item & rest & authors & candidate & Htop & Ha & Hin & Hacc & Hd).
    exists status_code, data, item, rest, authors, candidate.
    split_and!; try done.
    destruct (item !! "DOI") as [v|]; simpl in Hd; by subst.
  - by simplify_eq.
  - destruct e; by simplify_eq.
Qed.

Lemma search_doi_returns_top_doi_witness :
  ∃ status_code data item rest authors candidate,
    mock_registry 200 (queries start) (VStr "Some Title")
      = Response status_code (Some data) ∧
    ¬ error_status status_code ∧
    top_item data item rest ∧
    crossref_authors (VDict item) = Ret authors ∧
    VStr candidate ∈ authors ∧
    (Q2Qc 0.8 < similar (lower candidate) (lower "Smith"))%Qc ∧
    item !! "DOI" = Some (VStr "10.1/X").
Proof.
  apply (search_doi_returns_top_doi (mock_registry 200) (VStr "Some Title")
           "Smith" start (VStr "10.1/X")).
  - by vm_compute.
  - discriminate.
Defined.

Lemma match_authors_lower item author author' authors :
  lower author = lower author' →
  match_authors item author authors = match_authors item author' authors.
Proof.
  intros Heq. induction authors as [|x authors IH]; simpl; [done|].
  destruct (py_lower x); simpl; [|done]. by rewrite Heq, IH.
Qed.

(** The requested author is compared without regard to case: two authors
    with the same lower-case form give the same result in every situation,
    exceptions included. *)
Theorem search_doi_author_case reg title author author' w :
  lower author = lower author' →
  search_doi reg title author w = search_doi reg title author' w.
Proof.
  intros Heq. rewrite !search_doi_unfold. do 2 f_equal.
  destruct (reg (queries w) title) as [e|status_code json|status_code e];
    [done| |done].
  unfold try_body. destruct (raise_for_status status_code); simpl; [|done].
  destruct (response_json json) as [data|]; simpl; [|done].
  unfold search_items. destruct (has_items data) as [[|]|]; simpl; try done.
  destruct (py_getitem data "message") as [message|]; simpl; [|done].
  destruct (py_getitem message "items") as [items|]; simpl; [|done].
  destruct (py_getitem0 items) as [item|]; simpl; [|done].
  destruct (crossref_authors item) as [authors|]; simpl; [|done].
  by apply match_authors_lower.
Qed.

Lemma search_doi_author_case_witness :
  search_doi (mock_registry 200) (VStr "Some Title") "SMITH" start
  = search_doi (mock_registry 200) (VStr "Some Title") "smith" start.
Proof. apply search_doi_author_case. reflexivity. Defined.

Lemma similar_refl (s : string) : similar s s = 1%Qc.
Proof.
  rewrite similar_unfold. unfold SequenceMatcher_None.
  rewrite difflib_facts.get_matching_blocks_self.
  case_bool_decide as Hn; simpl.
  - rewrite !Nat.add_0_r. apply difflib_facts.calculate_ratio_all.
  - assert (length (String.list_ascii_of_string s) = 0) as -> by lia. done.
Qed.

(** A first candidate that equals the requested author up to case is always
    accepted, whatever the length of the name and whatever follows in the
    list of candidates. *)
Theorem search_doi_same_name reg w title author status_code data item rest
    candidate others :
  reg (queries w) title = Response status_code (Some data) →
  ¬ error_status status_code →
  top_item data item rest →
  crossref_authors (VDict item) = Ret (VStr candidate :: others) →
  lower candidate = lower author →
  search_doi reg title author w
  = (Ret (default VNone (item !! "DOI")), after_query w title).
Proof.
  intros Hreply Hok Htop Ha Heq.
  rewrite (search_doi_top _ _ _ _ _ _ _ _ Hreply Hok Htop), Ha. simpl.
  rewrite Heq, similar_refl. by rewrite bool_decide_eq_true_2.
Qed.

Lemma search_doi_same_name_witness :
  search_doi (mock_registry 200) (VStr "Some Title") "SMITH" start
  = (Ret (default VNone (mock_item !! "DOI")),
     after_query start (VStr "Some Title")).
Proof.
  apply (search_doi_same_name (mock_registry 200) start (VStr "Some Title")
           "SMITH" 200 mock_data mock_item [] "Smith" []).
  - reflexivity.
  - unfold error_status. lia.
  - eexists _, _. split_and!; reflexivity.
  - reflexivity.
  - reflexivity.
Defined.

Lemma family_names_app_raise l1 families l2 e :
  family_names l1 = Ret families →
  family_names l2 = Raise e →
  family_names (l1 ++ l2) = Raise e.
Proof.
  revert families. induction l1 as [|x l1 IH]; intros families; simpl; [done|].
  destruct (py_contains "family" x) as [[|]|]; simpl; [| |done].
  - destruct (py_getitem x "family"); simpl; [|done].
    destruct (family_names l1) as [fs|] eqn:E; simpl; [|done].
    intros _ Hl2. by rewrite (IH fs).
  - intros Hl1 Hl2. by rewrite (IH families).
Qed.

(** The list of candidates is built in full before the first comparison: an
    author record that is [None], a [bool] or a number makes [search_doi]
    raise [TypeError], even when a record before it has a matching family
    name. *)
Theorem search_doi_bad_author_record reg w title author status_code data item
    rest l1 families x l2 :
  reg (queries w) title = Response status_code (Some data) →
  ¬ error_status status_code →
  top_item data item rest →
  item !! "author" = Some (VList (l1 ++ x :: l2)) →
  family_names l1 = Ret families →
  scalar x = true →
  search_doi reg title author w = (Raise TypeError, after_query w title).
Proof.
  intros Hreply Hok Htop Ha Hl1 Hx.
  rewrite (search_doi_top _ _ _ _ _ _ _ _ Hreply Hok Htop).
  unfold crossref_authors. simpl. rewrite Ha. simpl.
  rewrite (family_names_app_raise l1 families (x :: l2) TypeError); [done|done|].
  by destruct x.
Qed.

Lemma search_doi_bad_author_record_witness :
  search_doi null_author_registry (VStr "Some Title") "Smith" start
  = (Raise TypeError, after_query start (VStr "Some Title")).
Proof.
  eapply (search_doi_bad_author_record null_author_registry start
            (VStr "Some Title") "Smith" 200 _ _ []
            [VDict {[ "family" := VStr "Smith" ]}] _ VNone []).
  - reflexivity.
  - unfold error_status. lia.
  - eexists _, _. split_and!; reflexivity.
  - reflexivity.
  - reflexivity.
  - reflexivity.
Defined.

(** A top item that is not an object makes [search_doi] raise
    [AttributeError], from [item.get]. *)
Theorem search_doi_item_not_object reg w title author status_code d message
    item rest :
  reg (queries w) title = Response status_code (Some (VDict d)) →
  ¬ error_status status_code →
  d !! "message" = Some (VDict message) →
  message !! "items" = Some (VList (item :: rest)) →
  is_dict item = false →
  search_doi reg title author w = (Raise AttributeError, after_query w title).
Proof.
  intros Hreply Hok Hd Hm Hitem. rewrite search_doi_unfold, Hreply.
  rewrite try_body_ok by done. unfold search_items, has_items. simpl.
  rewrite Hd. simpl. rewrite Hm. simpl. by destruct item.
Qed.

Lemma search_doi_item_not_object_witness :
  search_doi number_item_registry (VStr "Some Title") "Smith" start
  = (Raise AttributeError, after_query start (VStr "Some Title")).
Proof.
  eapply (search_doi_item_not_object number_item_registry start
            (VStr "Some Title") "Smith" 200 _ _ (VInt 7) []).
  - reflexivity.
  - unfold error_status. lia.
  - reflexivity.
  - reflexivity.
  - reflexivity.
Defined.

(** A decoded body that is [None], a [bool] or a number makes [search_doi]
    raise [TypeError], from ["message" in data]. *)
Theorem search_doi_scalar_body reg w title author status_code data :
  reg (queries w) title = Response status_code (Some data) →
  ¬ error_status status_code →
  scalar data = true →
  search_doi reg title author w = (Raise TypeError, after_query w title).
Proof.
  intros Hreply Hok Hdata. rewrite search_doi_unfold, Hreply.
  rewrite try_body_ok by done. by destruct data.
Qed.

Lemma search_doi_scalar_body_witness :
  search_doi null_registry (VStr "Some Title") "Smith" start
  = (Raise TypeError, after_query start (VStr "Some Title")).
Proof.
  apply (search_doi_scalar_body null_registry start (VStr "Some Title") "Smith"
           200 VNone).
  - reflexivity.
  - unfold error_status. lia.
  - reflexivity.
Defined.

(** ** Further properties of [process_bib_file] *)

(** The result of one pass of the loop that does not raise: the entry and
    the count as they were, or the entry with a true-valued DOI and the
    count plus one. *)
Lemma loop_body_result reg entry_key entry updated_count w r w' :
  loop_body reg entry_key entry updated_count w = (Ret r, w') →
  (r = (entry, updated_count) ∧ doi_writes w' = doi_writes w) ∨
  (eligible entry = true ∧
   ∃ doi, truthy doi = true ∧ r = (with_doi entry doi, updated_count + 1) ∧
          doi_writes w' = doi_writes w ++ [(entry_key, doi)]).
Proof.
  unfold loop_body, eligible, has_doi, title_of, authors_of.
  destruct (fields entry !! "doi") as [v|]; [intros [= <- <-]; by left|].
  destruct (title_and_authors _ _); [|intros [= <- <-]; by left].
  rewrite M_bind_unfold. unfold lift at 1.
  destruct (first_last_name _) as [first_author|e]; [|done].
  rewrite M_bind_unfold, search_doi_unfold.
  destruct (except_RequestException _) as [doi|e]; [|done].
  destruct (truthy doi) eqn:Htrue; [|intros [= <- <-]; by left].
  rewrite M_bind_unfold. unfold set_doi at 1. simpl. intros [= <- <-].
  right. split; [done|]. by exists doi.
Qed.

Lemma for_entries_frame reg : ∀ entries updated_count w r w',
  for_entries reg entries updated_count w = (Ret r, w') →
  Forall2
    (λ ke ke', ke'.1 = ke.1 ∧
       (ke'.2 = ke.2 ∨
        (eligible ke.2 = true ∧
         ∃ doi, truthy doi = true ∧ ke'.2 = with_doi ke.2 doi)))
    entries r.1.
Proof.
  induction entries as [|[key0 entry0] rest IH]; intros n w r w' Hrun.
  { revert Hrun. intros [= <- <-]. constructor. }
  rewrite for_entries_cons in Hrun.
  destruct (loop_body reg key0 entry0 n w) as [[r1|e] w1] eqn:Hbody; [|done].
  destruct (for_entries reg rest r1.2 w1) as [[r2|e] w2] eqn:Hrest; [|done].
  simplify_eq. simpl. constructor; [|by eapply IH].
  simpl. split; [done|].
  destruct (loop_body_result _ _ _ _ _ _ _ Hbody)
    as [[-> _]|(Hel & doi & Htrue & -> & _)]; [by left|right].
  split; [done|]. by exists doi.
Qed.

(** The bibliography handed to the writer has the entries of the input, key
    by key and in order; each entry is the input entry, or, for an entry
    without DOI that has a title and an author, the input entry with a
    true-valued ["doi"] field added: no other field and no person list is
    touched. *)
Theorem output_is_input_with_dois fs reg bib_data out :
  parse_file fs = Ret bib_data →
  handed_to_writer (process_bib_file fs reg) = Some out →
  Forall2
    (λ ke ke', ke'.1 = ke.1 ∧
       (ke'.2 = ke.2 ∨
        (eligible ke.2 = true ∧
         ∃ doi, truthy doi = true ∧
                persons ke'.2 = persons ke.2 ∧
                fields ke'.2 = <["doi" := doi]> (fields ke.2))))
    bib_data out.
Proof.
  intros Hparse Hout.
  destruct (process_bib_file_handed _ _ _ _ Hparse Hout) as (n & w & Hrun & _).
  apply for_entries_frame in Hrun. simpl in Hrun.
  eapply Forall2_impl; [exact Hrun|].
  intros ke ke' [Hkey [Hsame|(Hel & doi & Htrue & Hke')]]; (split; [done|]).
  - by left.
  - right. split; [done|]. exists doi. by rewrite Hke'.
Qed.

Lemma output_is_input_with_dois_witness :
  Forall2
    (λ ke ke', ke'.1 = ke.1 ∧
       (ke'.2 = ke.2 ∨
        (eligible ke.2 = true ∧
         ∃ doi, truthy doi = true ∧
                persons ke'.2 = persons ke.2 ∧
                fields ke'.2 = <["doi" := doi]> (fields ke.2))))
    two_entries
    [("k1"%string, with_doi entry_smith (VStr "10.1/X"));
     ("k2"%string, entry_with_doi)].
Proof.
  apply (output_is_input_with_dois (readable_writable two_entries)
           (mock_registry 200)).
  - reflexivity.
  - by vm_compute.
Defined.

Lemma for_entries_count reg : ∀ entries updated_count w r w',
  for_entries reg entries updated_count w = (Ret r, w') →
  r.2 + length (doi_writes w) = updated_count + length (doi_writes w') ∧
  r.2 ≤ updated_count + length (filter (λ ke, eligible ke.2 = true) entries).
Proof.
  induction entries as [|[key0 entry0] rest IH]; intros n w r w' Hrun.
  { revert Hrun. intros [= <- <-]. simpl. lia. }
  rewrite for_entries_cons in Hrun.
  destruct (loop_body reg key0 entry0 n w) as [[r1|e] w1] eqn:Hbody; [|done].
  destruct (for_entries reg rest r1.2 w1) as [[r2|e] w2] eqn:Hrest; [|done].
  simplify_eq. simpl. destruct (IH _ _ _ _ Hrest) as [Hcount Hle].
  destruct (loop_body_result _ _ _ _ _ _ _ Hbody)
    as [[-> Hw]|(Hel & doi & Htrue & -> & Hw)]; simpl in *.
  - rewrite Hw in Hcount. split; [done|].
    destruct (decide (eligible entry0 = true)).
    + rewrite filter_cons_True by done. simpl. lia.
    + by rewrite filter_cons_False.
  - rewrite Hw, length_app in Hcount. simpl in Hcount. split; [lia|].
    rewrite filter_cons_True by done. simpl. lia.
Qed.

(** The count a run reports is the number of assignments
    [entry.fields["doi"] = doi] it executed, and it is at most the number of
    entries without DOI that have a title and an author. *)
Theorem updated_count_is_writes fs reg bib_data updated_count :
  parse_file fs = Ret bib_data →
  outcome (process_bib_file fs reg) = Ret updated_count →
  updated_count = length (doi_writes (world (process_bib_file fs reg))) ∧
  updated_count ≤ length (filter (λ ke, eligible ke.2 = true) bib_data).
Proof.
  intros Hparse. unfold process_bib_file. rewrite Hparse.
  destruct (for_entries reg bib_data 0 start) as [[[out n]|e] w] eqn:Hrun;
    [|done].
  apply for_entries_count in Hrun as [Hcount Hle]. simpl in *.
  destruct (open_output fs); [|done].
  destruct (to_file fs out); [|done]. simpl. intros [= <-]. lia.
Qed.

Lemma updated_count_is_writes_witness :
  1 = length (doi_writes (world (process_bib_file (readable_writable two_entries)
                                   (mock_registry 200)))) ∧
  1 ≤ length (filter (λ ke, eligible ke.2 = true) two_entries).
Proof.
  apply (updated_count_is_writes (readable_writable two_entries)
           (mock_registry 200)).
  - reflexivity.
  - by vm_compute.
Defined.

Lemma loop_body_queries reg entry_key entry updated_count w r w' :
  loop_body reg entry_key entry updated_count w = (r, w') →
  queries w' = queries w ∨
  (eligible entry = true ∧ queries w' = queries w ++ [title_of entry]).
Proof.
  unfold loop_body, eligible, has_doi, title_of, authors_of.
  destruct (fields entry !! "doi") as [v|]; [intros [= <- <-]; by left|].
  destruct (title_and_authors _ _); [|intros [= <- <-]; by left].
  rewrite M_bind_unfold. unfold lift at 1.
  destruct (first_last_name _) as [first_author|e]; [|intros [= <- <-]; by left].
  rewrite M_bind_unfold, search_doi_unfold.
  destruct (except_RequestException _) as [doi|e]; [|intros [= <- <-]; by right].
  destruct (truthy doi); [|intros [= <- <-]; by right].
  rewrite M_bind_unfold. unfold set_doi at 1. simpl. intros [= <- <-]. by right.
Qed.

Lemma for_entries_queries reg : ∀ entries updated_count w r w',
  for_entries reg entries updated_count w = (r, w') →
  ∃ new, queries w' = queries w ++ new ∧
         new `sublist_of`
           (title_of ∘ snd <$> filter (λ ke, eligible ke.2 = true) entries).
Proof.
  induction entries as [|[key0 entry0] rest IH]; intros n w r w' Hrun.
  { revert Hrun. intros [= <- <-]. exists []. by rewrite app_nil_r. }
  rewrite for_entries_cons in Hrun.
  destruct (loop_body reg key0 entry0 n w) as [r1 w1] eqn:Hbody.
  apply loop_body_queries in Hbody as Hq.
  assert (Hstop : w' = w1 →
    ∃ new, queries w' = queries w ++ new ∧
           new `sublist_of`
             (title_of ∘ snd <$>
                filter (λ ke, eligible ke.2 = true) ((key0, entry0) :: rest))).
  { intros ->. destruct Hq as [Hq|[Hel Hq]].
    - exists []. rewrite app_nil_r. split; [done|apply sublist_nil_l].
    - exists [title_of entry0]. split; [done|].
      rewrite filter_cons_True by done. simpl. apply sublist_skip, sublist_nil_l. }
  destruct r1 as [r1|e]; [|apply Hstop; by simplify_eq].
  destruct (for_entries reg rest r1.2 w1) as [r2 w2] eqn:Hrest.
  assert (w' = w2) as -> by (destruct r2; by simplify_eq).
  destruct (IH _ _ _ _ Hrest) as (new & Hnew & Hsub).
  destruct Hq as [Hq|[Hel Hq]].
  - exists new. split; [by rewrite Hnew, Hq|].
    destruct (decide (eligible entry0 = true)).
    + rewrite filter_cons_True by done. simpl. by apply sublist_cons.
    + by rewrite filter_cons_False.
  - exists (title_of entry0 :: new). split.
    + by rewrite Hnew, Hq, <- app_assoc.
    + rewrite filter_cons_True by done. simpl. by apply sublist_skip.
Qed.

(** The queries of a run, in the order sent, are titles of the entries
    without DOI that have a title and an author, taken in file order and at
    most once per entry: no entry is queried twice, and none out of turn. *)
Theorem queries_follow_entries fs reg bib_data :
  parse_file fs = Ret bib_data →
  queries (world (process_bib_file fs reg)) `sublist_of`
    (title_of ∘ snd <$> filter (λ ke, eligible ke.2 = true) bib_data).
Proof.
  intros Hparse. rewrite (process_bib_file_world _ _ _ Hparse).
  destruct (for_entries reg bib_data 0 start) as [r w] eqn:Hrun.
  apply for_entries_queries in Hrun as (new & Hnew & Hsub). simpl in Hnew.
  by subst new.
Qed.

Lemma queries_follow_entries_witness :
  queries (world (process_bib_file (readable_writable two_entries)
                    (mock_registry 200)))
  `sublist_of`
  (title_of ∘ snd <$> filter (λ ke, eligible ke.2 = true) two_entries).
Proof. apply queries_follow_entries. reflexivity. Defined.

Lemma loop_body_skip reg entry_key entry updated_count w :
  eligible entry = false →
  loop_body reg entry_key entry updated_count w = (Ret (entry, updated_count), w).
Proof.
  unfold eligible, has_doi, title_of, authors_of, loop_body.
  destruct (fields entry !! "doi"); [done|]. simpl. by intros ->.
Qed.

Lemma for_entries_skip reg : ∀ entries updated_count w,
  Forall (λ ke, eligible ke.2 = false) entries →
  for_entries reg entries updated_count w = (Ret (entries, updated_count), w).
Proof.
  intros entries n w Hall. revert n w.
  induction Hall as [|[key0 entry0] rest Hskip _ IH]; intros n w; [done|].
  rewrite for_entries_cons, loop_body_skip by done. simpl. by rewrite IH.
Qed.

(** When every entry has a DOI already, or has no title, or an empty title,
    or no author, the run sends no query at all, assigns nothing and hands
    the input to the writer as it is; it reports zero updates when the
    writer has written the file, and raises what the writer raises
    otherwise. *)
Theorem run_without_eligible_entries fs reg bib_data :
  parse_file fs = Ret bib_data →
  open_output fs = Ret () →
  Forall (λ ke, eligible ke.2 = false) bib_data →
  process_bib_file fs reg
  = match to_file fs bib_data with
    | Ret stored =>
        {| outcome := Ret 0; world := start;
           handed_to_writer := Some bib_data; output_file := Written stored |}
    | Raise e =>
        {| outcome := Raise e; world := start;
           handed_to_writer := Some bib_data; output_file := Truncated |}
    end.
Proof.
  intros Hparse Hopen Hall. unfold process_bib_file.
  by rewrite Hparse, for_entries_skip, Hopen.
Qed.

Lemma run_without_eligible_entries_witness :
  process_bib_file
    (readable_writable [("k1"%string, entry_with_doi);
                        ("k2"%string, entry_no_author);
                        ("k3"%string, entry_no_title)])
    (mock_registry 200)
  = {| outcome := Ret 0; world := start;
       handed_to_writer := Some [("k1"%string, entry_with_doi);
                                 ("k2"%string, entry_no_author);
                                 ("k3"%string, entry_no_title)];
       output_file := Written [("k1"%string, entry_with_doi);
                               ("k2"%string, entry_no_author);
                               ("k3"%string, entry_no_title)] |}.
Proof.
  apply (run_without_eligible_entries
           (readable_writable [("k1"%string, entry_with_doi);
                               ("k2"%string, entry_no_author);
                               ("k3"%string, entry_no_title)])
           (mock_registry 200)).
  - reflexivity.
  - reflexivity.
  - repeat constructor.
Defined.

Lemma loop_body_again reg entry_key entry updated_count w r w' :
  stateless reg →
  loop_body reg entry_key entry updated_count w = (Ret r, w') →
  ∀ n2 w2, ∃ w2',
    loop_body reg entry_key r.1 n2 w2 = (Ret (r.1, n2), w2') ∧
    doi_writes w2' = doi_writes w2.
Proof.
  intros Hreg. unfold loop_body at 1.
  destruct (fields entry !! "doi") as [v|] eqn:Hdoi.
  { intros [= <- <-] n2 w2. exists w2. unfold loop_body. simpl. by rewrite Hdoi. }
  destruct (title_and_authors _ _) eqn:Hta.
  2:{ intros [= <- <-] n2 w2. exists w2. unfold loop_body. simpl.
      by rewrite Hdoi, Hta. }
  rewrite M_bind_unfold. unfold lift at 1.
  destruct (first_last_name _) as [first_author|e] eqn:Hfirst; [|done].
  rewrite M_bind_unfold, search_doi_unfold.
  destruct (except_RequestException _) as [doi|e] eqn:Hsearch; [|done].
  destruct (truthy doi) eqn:Htrue.
  - rewrite M_bind_unfold. unfold set_doi at 1. simpl. intros [= <- <-] n2 w2.
    exists w2. unfold loop_body. simpl. by rewrite lookup_insert_eq.
  - intros [= <- <-] n2 w2. unfold loop_body. simpl. rewrite Hdoi, Hta.
    rewrite M_bind_unfold. unfold lift at 1. rewrite Hfirst.
    rewrite M_bind_unfold, search_doi_unfold.
    rewrite (Hreg (queries w2)), <- (Hreg (queries w)), Hsearch, Htrue.
    by eexists.
Qed.

Lemma for_entries_again reg : ∀ entries updated_count w r w',
  stateless reg →
  for_entries reg entries updated_count w = (Ret r, w') →
  ∀ n2 w2, ∃ w2',
    for_entries reg r.1 n2 w2 = (Ret (r.1, n2), w2') ∧
    doi_writes w2' = doi_writes w2.
Proof.
  induction entries as [|[key0 entry0] rest IH]; intros n w r w' Hreg Hrun n2 w2.
  { revert Hrun. intros [= <- <-]. by exists w2. }
  rewrite for_entries_cons in Hrun.
  destruct (loop_body reg key0 entry0 n w) as [[r1|e] w1] eqn:Hbody; [|done].
  destruct (for_entries reg rest r1.2 w1) as [[r2|e] w2'] eqn:Hrest; [|done].
  simplify_eq. cbn [fst snd].
  destruct (loop_body_again _ _ _ _ _ _ _ Hreg Hbody n2 w2) as (w3 & Hb & Hw3).
  destruct (IH _ _ _ _ Hreg Hrest n2 w3) as (w4 & Hr & Hw4).
  exists w4. rewrite for_entries_cons, Hb. simpl. rewrite Hr. simpl.
  split; [done|congruence].
Qed.

(** Running the program again on the file it wrote, against a registry
    whose answers depend on the title only, changes nothing, provided the
    file reads back as the bibliography that was handed to the writer (the
    writer had nothing to encode): the second run assigns no DOI, reports
    zero updates, hands the same bibliography to the writer and leaves the
    same file. *)
Theorem second_run_changes_nothing fs reg bib_data out :
  stateless reg →
  parse_file fs = Ret bib_data →
  handed_to_writer (process_bib_file fs reg) = Some out →
  output_file (process_bib_file fs reg) = Written out →
  process_bib_file
    {| parse_file := Ret out; open_output := open_output fs;
       to_file := to_file fs |} reg
  = {| outcome := Ret 0;
       world := world (process_bib_file
                  {| parse_file := Ret out; open_output := open_output fs;
                     to_file := to_file fs |} reg);
       handed_to_writer := Some out; output_file := Written out |} ∧
  doi_writes (world (process_bib_file
                {| parse_file := Ret out; open_output := open_output fs;
                   to_file := to_file fs |} reg)) = [].
Proof.
  intros Hreg Hparse Hout Hfile.
  destruct (process_bib_file_handed _ _ _ _ Hparse Hout)
    as (n & w & Hrun & Hopen & _ & Hfile').
  rewrite Hfile in Hfile'.
  destruct (to_file fs out) as [stored|e] eqn:Hwrite; [|done].
  injection Hfile' as <-.
  destruct (for_entries_again _ _ _ _ _ _ Hreg Hrun 0 start) as (w2 & Hr & Hw2).
  unfold process_bib_file. simpl in *. by rewrite Hr, Hopen, Hwrite.
Qed.

Lemma second_run_changes_nothing_witness :
  process_bib_file
    {| parse_file := Ret [("k1"%string, with_doi entry_smith (VStr "10.1/X"));
                          ("k2"%string, entry_with_doi)];
       open_output := open_output (readable_writable two_entries);
       to_file := to_file (readable_writable two_entries) |}
    (mock_registry 200)
  = {| outcome := Ret 0;
       world := world (process_bib_file
         {| parse_file := Ret [("k1"%string, with_doi entry_smith (VStr "10.1/X"));
                               ("k2"%string, entry_with_doi)];
            open_output := open_output (readable_writable two_entries);
            to_file := to_file (readable_writable two_entries) |}
         (mock_registry 200));
       handed_to_writer := Some [("k1"%string, with_doi entry_smith (VStr "10.1/X"));
                                 ("k2"%string, entry_with_doi)];
       output_file := Written [("k1"%string, with_doi entry_smith (VStr "10.1/X"));
                               ("k2"%string, entry_with_doi)] |} ∧
  doi_writes (world (process_bib_file
    {| parse_file := Ret [("k1"%string, with_doi entry_smith (VStr "10.1/X"));
                          ("k2"%string, entry_with_doi)];
       open_output := open_output (readable_writable two_entries);
       to_file := to_file (readable_writable two_entries) |}
    (mock_registry 200))) = [].
Proof.
  apply (second_run_changes_nothing (readable_writable two_entries)
           (mock_registry 200) two_entries).
  - intros hist title. reflexivity.
  - reflexivity.
  - by vm_compute.
  - by vm_compute.
Defined.

(** ** The range of [similar] *)

Module difflib_range.
Import difflib difflib_spec difflib_facts.
Section Range.
Context `{Countable A}.
Variable sm : SequenceMatcher (A := A).

Lemma scan_row_bounds_b blo bhi i j2len js : ∀ newj2len best,
  (∀ j v, j2len !! j = Some v → blo ≤ j ∧ v ≤ S j - blo) →
  (∀ j v, newj2len !! j = Some v → blo ≤ j ∧ v ≤ S j - blo) →
  blo ≤ best.1.2 → best.1.2 + best.2 ≤ bhi →
  let r := scan_row blo bhi i j2len js newj2len best in
  (∀ j v, r.1 !! j = Some v → blo ≤ j ∧ v ≤ S j - blo) ∧
  blo ≤ r.2.1.2 ∧ r.2.1.2 + r.2.2 ≤ bhi.
Proof.
  induction js as [|j js IH]; intros newj2len best Hold Hnew Hlo Hhi; simpl.
  { done. }
  case_bool_decide as Hjlo; [by apply IH|].
  case_bool_decide as Hjhi; [done|].
  assert (Hk : j2lenget_pred j2len j + 1 ≤ S j - blo).
  { unfold j2lenget_pred. destruct j as [|j']; [lia|].
    destruct (j2len !! j') as [v|] eqn:E; simpl; [|lia].
    apply Hold in E. lia. }
  apply IH; [done| | |].
  - intros j0 v. rewrite lookup_insert. case_decide; [|by apply Hnew].
    intros [= <-]. subst j0. lia.
  - case_bool_decide; simpl; [lia|done].
  - case_bool_decide; simpl; [lia|done].
Qed.

Lemma scan_rows_bounds_b alo ahi blo bhi :
  blo ≤ bhi →
  blo ≤ (scan_rows sm alo ahi blo bhi).1.2 ∧
  (scan_rows sm alo ahi blo bhi).1.2 + (scan_rows sm alo ahi blo bhi).2 ≤ bhi.
Proof.
  intros Hle. unfold scan_rows.
  assert (Hinv : ∀ rows st,
    (∀ j v, st.1 !! j = Some v → blo ≤ j ∧ v ≤ S j - blo) →
    blo ≤ st.2.1.2 → st.2.1.2 + st.2.2 ≤ bhi →
    blo ≤ (fold_left (scan_step sm blo bhi) rows st).2.1.2 ∧
    (fold_left (scan_step sm blo bhi) rows st).2.1.2
      + (fold_left (scan_step sm blo bhi) rows st).2.2 ≤ bhi).
  { induction rows as [|i rows IH]; intros st Hm Hlo Hhi; simpl; [done|].
    unfold scan_step at 2 4 6.
    pose proof (scan_row_bounds_b blo bhi i st.1 (candidates sm i) ∅ st.2 Hm
                  ltac:(intros j v; by rewrite lookup_empty) Hlo Hhi)
      as (Hm' & Hlo' & Hhi').
    by apply IH. }
  apply Hinv; simpl; [|done|lia]. intros j v. by rewrite lookup_empty.
Qed.

Lemma extend_back_bounds_b junk alo blo : ∀ besti bestj bestsize,
  blo ≤ bestj →
  let r := extend_back sm junk alo blo besti bestj bestsize in
  blo ≤ r.1.2 ∧ r.1.2 + r.2 = bestj + bestsize.
Proof.
  induction besti as [|i' IH]; intros bestj bestsize Hlo; simpl; [done|].
  destruct bestj as [|j']; [done|].
  destruct (_ && _) eqn:E; [|done].
  apply andb_true_iff in E as [E _]. apply andb_true_iff in E as [_ E].
  apply bool_decide_eq_true in E.
  destruct (IH j' (S bestsize) ltac:(lia)) as [? ?]. split; [done|lia].
Qed.

Lemma extend_fwd_bounds_b junk ahi bhi besti bestj : ∀ gap bestsize,
  bestj + bestsize ≤ bhi →
  bestj + extend_fwd sm junk ahi bhi besti bestj gap bestsize ≤ bhi.
Proof.
  induction gap as [|gap IH]; intros bestsize Hhi; simpl; [lia|].
  destruct (_ && _) eqn:E; [|lia].
  apply andb_true_iff in E as [E _]. apply andb_true_iff in E as [_ E].
  apply bool_decide_eq_true in E. apply IH. lia.
Qed.

Lemma extend_bounds_b junk alo ahi blo bhi (m : Match) :
  blo ≤ m.1.2 → m.1.2 + m.2 ≤ bhi →
  blo ≤ (extend sm junk alo ahi blo bhi m).1.2 ∧
  (extend sm junk alo ahi blo bhi m).1.2 + (extend sm junk alo ahi blo bhi m).2 ≤ bhi.
Proof.
  intros Hlo Hhi. unfold extend.
  pose proof (extend_back_bounds_b junk alo blo m.1.1 m.1.2 m.2 Hlo) as [Hlo' Hsum].
  destruct (extend_back sm junk alo blo m.1.1 m.1.2 m.2) as [[besti bestj] bestsize].
  simpl in *. split; [done|].
  apply extend_fwd_bounds_b. lia.
Qed.

(** The block found lies in the range of [b] searched, as it lies in the
    range of [a] ([find_longest_match_bounds]). *)
Lemma find_longest_match_bounds_b alo ahi blo bhi :
  blo ≤ bhi →
  blo ≤ (find_longest_match sm alo ahi blo bhi).1.2 ∧
  (find_longest_match sm alo ahi blo bhi).1.2
    + (find_longest_match sm alo ahi blo bhi).2 ≤ bhi.
Proof.
  intros Hle. unfold find_longest_match.
  destruct (scan_rows_bounds_b alo ahi blo bhi Hle) as [H1 H2].
  destruct (extend_bounds_b false alo ahi blo bhi _ H1 H2) as [H3 H4].
  by apply extend_bounds_b.
Qed.

Lemma matched_app l1 l2 : matched (l1 ++ l2) = matched l1 + matched l2.
Proof. induction l1 as [|x l1 IH]; simpl; [done|]. rewrite IH. lia. Qed.

Lemma matched_Permutation l1 l2 : l1 ≡ₚ l2 → matched l1 = matched l2.
Proof. induction 1; simpl; lia. Qed.

(** The blocks found never hold more elements than the ranges they were
    searched in. *)
Lemma blocks_loop_matched : ∀ fuel queue matching_blocks blocks,
  Forall (λ q : nat * nat * nat * nat, q.1.1.1 ≤ q.1.1.2 ∧ q.1.2 ≤ q.2) queue →
  blocks_loop sm fuel queue matching_blocks = Some blocks →
  matched blocks ≤ matched matching_blocks + queue_width_a queue ∧
  matched blocks ≤ matched matching_blocks + queue_width_b queue.
Proof.
  induction fuel as [|fuel IH]; intros queue acc blocks Hq; [done|].
  destruct queue as [|[[[alo ahi] blo] bhi] queue]; simpl.
  { intros [= <-]. lia. }
  apply Forall_cons in Hq as [[Hla Hlb] Hq]. simpl in Hla, Hlb.
  pose proof (find_longest_match_bounds sm alo ahi blo bhi Hla) as [Ha1 Ha2].
  pose proof (find_longest_match_bounds_b alo ahi blo bhi Hlb) as [Hb1 Hb2].
  destruct (find_longest_match sm alo ahi blo bhi) as [[i j] k].
  simpl in Ha1, Ha2, Hb1, Hb2.
  case_bool_decide as Hk.
  - intros Hrun. apply IH in Hrun.
    + rewrite matched_app in Hrun. simpl in Hrun. unfold size in Hrun.
      simpl in Hrun.
      destruct (_ && _), (_ && _); simpl in Hrun; lia.
    + destruct (_ && _), (_ && _); repeat constructor; simpl; done || lia.
  - intros Hrun. apply IH in Hrun; [lia|done].
Qed.

Lemma collapse_matched : ∀ blocks cur non_adjacent,
  matched (collapse blocks cur non_adjacent).1
    + size (collapse blocks cur non_adjacent).2
  = matched non_adjacent + size cur + matched blocks.
Proof.
  induction blocks as [|[[i2 j2] k2] blocks IH]; intros [[i1 j1] k1] na; simpl.
  { unfold size. simpl. lia. }
  destruct (_ && _).
  - rewrite IH. unfold size. simpl. lia.
  - rewrite IH. unfold size. simpl. case_bool_decide.
    + rewrite matched_app. simpl. unfold size. simpl. lia.
    + lia.
Qed.

(** [get_matching_blocks] matches at most [len(a)] and at most [len(b)]
    elements. *)
Lemma get_matching_blocks_matched :
  matched (get_matching_blocks sm) ≤ length (sm_a sm) ∧
  matched (get_matching_blocks sm) ≤ length (sm_b sm).
Proof.
  unfold get_matching_blocks.
  destruct (get_matching_blocks_terminates sm) as [found Hfound].
  rewrite Hfound. simpl.
  apply blocks_loop_matched in Hfound as Hle;
    [|repeat constructor; simpl; lia].
  simpl in Hle.
  pose proof (matched_Permutation _ _ (merge_sort_Permutation Match_le found))
    as Hsort.
  pose proof (collapse_matched (merge_sort Match_le found) (0, 0, 0) []) as Hc.
  destruct (collapse (merge_sort Match_le found) (0, 0, 0) [])
    as [na [[i1 j1] k1]].
  unfold size in Hc. simpl in Hc.
  rewrite matched_app. simpl. unfold size. simpl.
  case_bool_decide; [rewrite matched_app; simpl; unfold size; simpl|]; lia.
Qed.
End Range.

Lemma calculate_ratio_range (matches length : nat) :
  2 * matches ≤ length →
  (0 ≤ _calculate_ratio matches length ≤ 1)%Qc.
Proof.
  intros Hle. unfold _calculate_ratio. destruct length as [|m]; [done|].
  unfold Qcle. simpl. rewrite !Qred_correct. unfold Qle. simpl. lia.
Qed.
End difflib_range.

(** [similar] returns a number from [0.0] to [1.0], for all strings. *)
Theorem similar_range (a b : string) : (0 ≤ similar a b ≤ 1)%Qc.
Proof.
  rewrite similar_unfold.
  apply difflib_range.calculate_ratio_range.
  pose proof (difflib_range.get_matching_blocks_matched
                (SequenceMatcher_None a b)) as [Ha Hb].
  unfold difflib_spec.matched in Ha, Hb.
  unfold SequenceMatcher_None in Ha at 2. unfold SequenceMatcher_None in Hb at 2.
  simpl in Ha, Hb. lia.
Qed.

(** ** Strings of ratio [1.0] *)

Module difflib_exact.
Import difflib difflib_spec difflib_facts difflib_range.
Section Exact.
Context `{Countable A}.
Variable sm : SequenceMatcher (A := A).
Hypothesis Hsound : ∀ i j, j ∈ candidates sm i → matches_at sm i j.

Ltac matches_by Hm :=
  match goal with
  | |- matches_at _ ?p ?q =>
      match type of Hm with
      | matches_at _ ?p' ?q' =>
          replace p with p' by lia; replace q with q' by lia; exact Hm
      end
  end.

Lemma scan_row_sound blo bhi i j2len js : ∀ newj2len best,
  (∀ j, j ∈ js → matches_at sm i j) →
  (∀ j v, j2len !! j = Some v →
     v ≤ i ∧ v ≤ S j ∧ ∀ t, t < v → matches_at sm (i - v + t) (S j - v + t)) →
  (∀ j v, newj2len !! j = Some v →
     v ≤ S i ∧ v ≤ S j ∧ ∀ t, t < v → matches_at sm (S i - v + t) (S j - v + t)) →
  block_ok sm best →
  let r := scan_row blo bhi i j2len js newj2len best in
  (∀ j v, r.1 !! j = Some v →
     v ≤ S i ∧ v ≤ S j ∧ ∀ t, t < v → matches_at sm (S i - v + t) (S j - v + t)) ∧
  block_ok sm r.2.
Proof.
  induction js as [|j js IH]; intros newj2len best Hjs Hold Hnew Hbest; simpl.
  { done. }
  assert (Hjs' : ∀ j0, j0 ∈ js → matches_at sm i j0).
  { intros j0 Hj0. apply Hjs. by right. }
  case_bool_decide; [by apply IH|].
  case_bool_decide; [done|].
  assert (Hk : j2lenget_pred j2len j + 1 ≤ S i ∧ j2lenget_pred j2len j + 1 ≤ S j ∧
               ∀ t, t < j2lenget_pred j2len j + 1 →
                    matches_at sm (S i - (j2lenget_pred j2len j + 1) + t)
                                  (S j - (j2lenget_pred j2len j + 1) + t)).
  { pose proof (Hjs j ltac:(left)) as Hij.
    unfold j2lenget_pred. destruct j as [|j'].
    - split_and!; [lia|lia|]. intros t Ht.
      assert (t = 0) as -> by lia. matches_by Hij.
    - destruct (j2len !! j') as [v|] eqn:E; simpl.
      + destruct (Hold _ _ E) as (Hvi & Hvj & Hm). split_and!; [lia|lia|].
        intros t Ht. destruct (decide (t < v)) as [Hlt|Hge].
        * specialize (Hm t Hlt). matches_by Hm.
        * assert (t = v) as -> by lia. matches_by Hij.
      + split_and!; [lia|lia|]. intros t Ht.
        assert (t = 0) as -> by lia. matches_by Hij. }
  apply IH; [done|done| |].
  - intros j0 v. rewrite lookup_insert. case_decide; [|by apply Hnew].
    intros [= <-]. by subst j0.
  - case_bool_decide; [|done]. destruct Hk as (_ & _ & Hm).
    intros t Ht. simpl in Ht. specialize (Hm t Ht). simpl. matches_by Hm.
Qed.

Lemma scan_rows_sound alo ahi blo bhi :
  block_ok sm (scan_rows sm alo ahi blo bhi).
Proof.
  unfold scan_rows.
  assert (Hinv : ∀ len,
    let st := fold_left (scan_step sm blo bhi) (seq alo len) (∅, (alo, blo, 0)) in
    (∀ j v, st.1 !! j = Some v →
       v ≤ alo + len ∧ v ≤ S j ∧
       ∀ t, t < v → matches_at sm (alo + len - v + t) (S j - v + t)) ∧
    block_ok sm st.2).
  { induction len as [|len IH]; cbv zeta.
    - simpl. split; [intros j v; by rewrite lookup_empty|].
      intros t Ht. simpl in Ht. lia.
    - rewrite seq_S, fold_left_app. simpl. destruct IH as (Hm & Hb).
      set (st := fold_left _ _ _) in *. unfold scan_step.
      pose proof (scan_row_sound blo bhi (alo + len) st.1 (candidates sm (alo + len))
                    ∅ st.2 (Hsound (alo + len)) Hm
                    ltac:(intros j v; by rewrite lookup_empty) Hb) as (Hm' & Hb').
      split; [|done]. intros j v Hjv. apply Hm' in Hjv as (? & ? & Hmt).
      split_and!; [lia|done|]. intros t Ht. specialize (Hmt t Ht).
      matches_by Hmt. }
  apply Hinv.
Qed.

Lemma same_at_matches junk i j : same_at sm junk i j = true → matches_at sm i j.
Proof.
  unfold same_at, matches_at.
  destruct (sm_a sm !! i) as [x|]; [|done].
  destruct (sm_b sm !! j) as [y|]; [|done].
  intros [_ Hxy%bool_decide_eq_true]%andb_true_iff. subst. by exists y.
Qed.

Lemma extend_back_sound junk alo blo : ∀ besti bestj bestsize,
  block_ok sm (besti, bestj, bestsize) →
  block_ok sm (extend_back sm junk alo blo besti bestj bestsize).
Proof.
  induction besti as [|i' IH]; intros bestj bestsize Hok; simpl; [done|].
  destruct bestj as [|j']; [done|].
  destruct (_ && _) eqn:E; [|done].
  apply andb_true_iff in E as [_ E%same_at_matches].
  apply IH. intros t Ht. simpl in Ht. simpl. destruct t as [|t].
  - matches_by E.
  - specialize (Hok t ltac:(simpl; lia)). simpl in Hok. matches_by Hok.
Qed.

Lemma extend_fwd_sound junk ahi bhi besti bestj : ∀ gap bestsize,
  block_ok sm (besti, bestj, bestsize) →
  block_ok sm (besti, bestj,
               extend_fwd sm junk ahi bhi besti bestj gap bestsize).
Proof.
  induction gap as [|gap IH]; intros bestsize Hok; simpl; [done|].
  destruct (_ && _) eqn:E; [|done].
  apply andb_true_iff in E as [_ E%same_at_matches].
  apply IH. intros t Ht. simpl in Ht. simpl.
  destruct (decide (t = bestsize)) as [->|]; [done|].
  apply (Hok t). simpl. lia.
Qed.

Lemma extend_sound junk alo ahi blo bhi m :
  block_ok sm m → block_ok sm (extend sm junk alo ahi blo bhi m).
Proof.
  intros Hok. unfold extend. destruct m as [[besti bestj] bestsize]. simpl.
  pose proof (extend_back_sound junk alo blo besti bestj bestsize Hok) as Hb.
  destruct (extend_back sm junk alo blo besti bestj bestsize) as [[i j] k].
  by apply extend_fwd_sound.
Qed.

(** The block found is a block of equal elements: [a[i:i+k] == b[j:j+k]]. *)
Lemma find_longest_match_sound alo ahi blo bhi :
  block_ok sm (find_longest_match sm alo ahi blo bhi).
Proof.
  unfold find_longest_match. do 2 apply extend_sound. apply scan_rows_sound.
Qed.

Lemma blocks_loop_potential : ∀ fuel queue matching_blocks blocks,
  Forall (λ q : nat * nat * nat * nat, q.1.1.1 ≤ q.1.1.2 ∧ q.1.2 ≤ q.2) queue →
  blocks_loop sm fuel queue matching_blocks = Some blocks →
  matched blocks ≤ matched matching_blocks + queue_potential queue.
Proof.
  induction fuel as [|fuel IH]; intros queue acc blocks Hq; [done|].
  destruct queue as [|[[[alo ahi] blo] bhi] queue]; simpl.
  { intros [= <-]. lia. }
  apply Forall_cons in Hq as [[Hla Hlb] Hq]. simpl in Hla, Hlb.
  pose proof (find_longest_match_bounds sm alo ahi blo bhi Hla) as [Ha1 Ha2].
  pose proof (find_longest_match_bounds_b sm alo ahi blo bhi Hlb) as [Hb1 Hb2].
  destruct (find_longest_match sm alo ahi blo bhi) as [[i j] k].
  simpl in Ha1, Ha2, Hb1, Hb2.
  case_bool_decide as Hk.
  - intros Hrun. apply IH in Hrun.
    + rewrite matched_app in Hrun. simpl in Hrun. unfold size in Hrun.
      simpl in Hrun.
      destruct (_ && _), (_ && _); simpl in Hrun; lia.
    + destruct (_ && _), (_ && _); repeat constructor; simpl; done || lia.
  - intros Hrun. apply IH in Hrun; [lia|done].
Qed.

(** When the loop matches as much as the queued ranges allow, and these are
    ranges of equal bounds in [a] and [b], every queued position holds equal
    elements. *)
Lemma blocks_loop_full : ∀ fuel queue matching_blocks blocks,
  Forall (λ q : nat * nat * nat * nat,
            q.1.1.1 ≤ q.1.1.2 ∧ q.1.2 = q.1.1.1 ∧ q.2 = q.1.1.2) queue →
  blocks_loop sm fuel queue matching_blocks = Some blocks →
  matched blocks = matched matching_blocks + queue_potential queue →
  ∀ p, Exists (λ q : nat * nat * nat * nat, q.1.1.1 ≤ p < q.1.1.2) queue →
       matches_at sm p p.
Proof.
  induction fuel as [|fuel IH]; intros queue matching_blocks blocks Hq; [done|].
  destruct queue as [|[[[alo ahi] blo] bhi] queue].
  { intros _ _ p Hp. by apply Exists_nil in Hp. }
  apply Forall_cons in Hq as [(Hla & Hblo & Hbhi) Hq]. simpl in Hla, Hblo, Hbhi.
  subst blo bhi. cbn [blocks_loop].
  pose proof (find_longest_match_bounds sm alo ahi alo ahi Hla) as [Ha1 Ha2].
  pose proof (find_longest_match_bounds_b sm alo ahi alo ahi Hla) as [Hb1 Hb2].
  pose proof (find_longest_match_sound alo ahi alo ahi) as Hblock.
  destruct (find_longest_match sm alo ahi alo ahi) as [[i j] k].
  simpl in Ha1, Ha2, Hb1, Hb2. unfold block_ok in Hblock. simpl in Hblock.
  assert (Hwide : Forall (λ q : nat * nat * nat * nat,
                            q.1.1.1 ≤ q.1.1.2 ∧ q.1.2 ≤ q.2) queue).
  { eapply Forall_impl; [exact Hq|]. intros q (? & ? & ?). lia. }
  case_bool_decide as Hk.
  - intros Hrun Hfull p Hp.
    apply blocks_loop_potential in Hrun as Hpot.
    2:{ destruct (bool_decide (alo < i) && bool_decide (alo < j)),
                 (bool_decide (i + k < ahi) && bool_decide (j + k < ahi));
          repeat (apply Forall_cons; split; [simpl; lia|]); exact Hwide. }
    rewrite matched_app in Hpot. simpl in Hpot, Hfull. unfold size in Hpot.
    simpl in Hpot.
    assert (i = j) as <-.
    { destruct (bool_decide (alo < i) && bool_decide (alo < j)),
               (bool_decide (i + k < ahi) && bool_decide (j + k < ahi));
        simpl in Hpot; lia. }
    rewrite !andb_diag in Hrun, Hpot.
    assert (Hcont : ∀ p,
      Exists (λ q : nat * nat * nat * nat, q.1.1.1 ≤ p < q.1.1.2)
        (if bool_decide (i + k < ahi)
         then (i + k, ahi, i + k, ahi)
              :: (if bool_decide (alo < i) then (alo, i, alo, i) :: queue
                  else queue)
         else if bool_decide (alo < i) then (alo, i, alo, i) :: queue
              else queue) →
      matches_at sm p p).
    { apply (IH _ (matching_blocks ++ [(i, i, k)]) blocks); [|exact Hrun|].
      - destruct (bool_decide (alo < i)), (bool_decide (i + k < ahi));
          repeat (apply Forall_cons; split; [simpl; lia|]); exact Hq.
      - rewrite matched_app. simpl. unfold size. simpl.
        destruct (bool_decide (alo < i)), (bool_decide (i + k < ahi));
          simpl in Hpot |- *; lia. }
    apply Exists_cons in Hp as [Hp|Hp]; simpl in Hp.
    + destruct (decide (p < i)) as [Hlt|Hge].
      * apply Hcont. rewrite (bool_decide_eq_true_2 (alo < i)) by lia.
        destruct (bool_decide (i + k < ahi)).
        -- apply Exists_cons. right. apply Exists_cons. left. simpl. lia.
        -- apply Exists_cons. left. simpl. lia.
      * destruct (decide (p < i + k)) as [Hin|Hout].
        -- specialize (Hblock (p - i) ltac:(lia)).
           replace (i + (p - i)) with p in Hblock by lia. exact Hblock.
        -- apply Hcont. rewrite (bool_decide_eq_true_2 (i + k < ahi)) by lia.
           apply Exists_cons. left. simpl. lia.
    + apply Hcont.
      destruct (bool_decide (alo < i)), (bool_decide (i + k < ahi));
        repeat (apply Exists_cons; right); exact Hp.
  - intros Hrun Hfull p Hp.
    pose proof (blocks_loop_potential _ _ _ _ Hwide Hrun) as Hpot.
    simpl in Hfull.
    apply Exists_cons in Hp as [Hp|Hp]; simpl in Hp; [lia|].
    apply (IH queue matching_blocks blocks Hq Hrun); [lia|exact Hp].
Qed.

Lemma get_matching_blocks_found found :
  blocks_loop sm (queue_fuel sm)
    [(0, length (sm_a sm), 0, length (sm_b sm))] [] = Some found →
  matched (get_matching_blocks sm) = matched found.
Proof.
  intros Hfound. unfold get_matching_blocks. rewrite Hfound. simpl.
  pose proof (matched_Permutation _ _ (merge_sort_Permutation Match_le found))
    as Hsort.
  pose proof (collapse_matched (merge_sort Match_le found) (0, 0, 0) []) as Hc.
  destruct (collapse (merge_sort Match_le found) (0, 0, 0) [])
    as [na [[i1 j1] k1]].
  unfold size in Hc. simpl in Hc.
  rewrite matched_app. simpl. unfold size. simpl.
  case_bool_decide; [rewrite matched_app; simpl; unfold size; simpl|]; lia.
Qed.

(** Two sequences of one length whose every element is matched are equal. *)
Lemma get_matching_blocks_full :
  length (sm_a sm) = length (sm_b sm) →
  matched (get_matching_blocks sm) = length (sm_a sm) →
  sm_a sm = sm_b sm.
Proof.
  intros Hlen Hall.
  destruct (get_matching_blocks_terminates sm) as [found Hfound].
  rewrite (get_matching_blocks_found found Hfound) in Hall.
  assert (Hdiag : ∀ p,
    Exists (λ q : nat * nat * nat * nat, q.1.1.1 ≤ p < q.1.1.2)
      [(0, length (sm_a sm), 0, length (sm_b sm))] →
    matches_at sm p p).
  { apply (blocks_loop_full (queue_fuel sm)
             [(0, length (sm_a sm), 0, length (sm_b sm))] [] found);
      [|exact Hfound|simpl; lia].
    repeat constructor; simpl; lia. }
  apply list_eq. intros p.
  destruct (decide (p < length (sm_a sm))) as [Hp|Hp].
  - destruct (Hdiag p) as (x & -> & ->); [|done].
    apply Exists_cons. left. simpl. lia.
  - rewrite !lookup_ge_None_2 by lia. done.
Qed.
End Exact.

Lemma calculate_ratio_one (matches length : nat) :
  _calculate_ratio matches length = 1%Qc → length = 0 ∨ 2 * matches = length.
Proof.
  unfold _calculate_ratio. destruct length as [|m]; [by left|].
  change 1%Qc with (Q2Qc 1). intros Heq%Q2Qc_eq_iff. right.
  unfold Qeq in Heq. cbn [Qnum Qden] in Heq. lia.
Qed.
End difflib_exact.

(** Only identical strings have the ratio [1.0]: [similar(a, b) == 1.0]
    implies [a == b]. *)
Theorem similar_one_identical (a b : string) :
  similar a b = 1%Qc → a = b.
Proof.
  rewrite similar_unfold. intros Hone.
  pose proof (difflib_range.get_matching_blocks_matched
                (SequenceMatcher_None a b)) as [Ha Hb].
  unfold difflib_spec.matched in Ha, Hb.
  unfold SequenceMatcher_None in Ha at 2. unfold SequenceMatcher_None in Hb at 2.
  simpl in Ha, Hb.
  assert (Hlists : String.list_ascii_of_string a = String.list_ascii_of_string b).
  { apply difflib_exact.calculate_ratio_one in Hone as [Hzero|Hfull].
    - destruct (String.list_ascii_of_string a), (String.list_ascii_of_string b);
        simpl in Hzero; [done|lia|lia|lia].
    - apply (difflib_exact.get_matching_blocks_full (SequenceMatcher_None a b)).
      + intros i j Hj. unfold SequenceMatcher_None in Hj.
        apply difflib_facts.chain_b_candidates in Hj as (x & Hi & Hjx & _).
        by exists x.
      + unfold SequenceMatcher_None. simpl. lia.
      + unfold difflib_spec.matched. unfold SequenceMatcher_None at 2. simpl. lia. }
  rewrite <- (String.string_of_list_ascii_of_string a),
          <- (String.string_of_list_ascii_of_string b).
  by rewrite Hlists.
Qed.

Lemma similar_one_identical_witness : "Smith"%string = "Smith"%string.
Proof. apply similar_one_identical. apply Qc_is_canon. by vm_compute. Defined.

Lemma length_list_ascii_of_string (s : string) :
  length (String.list_ascii_of_string s) = String.length s.
Proof. induction s as [|c s IH]; simpl; [done|]. by rewrite IH. Qed.

(** Two strings whose ratio is above the threshold [0.8] of [search_doi] have
    close lengths: the longer is less than one and a half times the shorter
    (or both are empty). *)
Theorem similar_above_threshold_lengths (a b : string) :
  (Q2Qc 0.8 < similar a b)%Qc →
  (a = "" ∧ b = "") ∨
  2 * (String.length a `max` String.length b)
  < 3 * (String.length a `min` String.length b).
Proof.
  rewrite similar_unfold.
  pose proof (difflib_range.get_matching_blocks_matched
                (SequenceMatcher_None a b)) as [Ha Hb].
  unfold difflib_spec.matched in Ha, Hb.
  unfold SequenceMatcher_None in Ha at 2. unfold SequenceMatcher_None in Hb at 2.
  simpl in Ha, Hb. rewrite length_list_ascii_of_string in Ha, Hb |- *.
  rewrite length_list_ascii_of_string.
  unfold difflib._calculate_ratio.
  destruct (String.length a + String.length b) as [|len] eqn:Hlen.
  { intros _. left. destruct a, b; simpl in Hlen; done || lia. }
  intros Hlt. right. unfold Qclt in Hlt. simpl in Hlt.
  rewrite !Qred_correct in Hlt. unfold Qlt in Hlt. simpl in Hlt. lia.
Qed.

Lemma similar_above_threshold_lengths_witness :
  ("smith"%string = "" ∧ "smiths"%string = "") ∨
  2 * (String.length "smith" `max` String.length "smiths")
  < 3 * (String.length "smith" `min` String.length "smiths").
Proof. apply similar_above_threshold_lengths. by vm_compute. Defined.
